(** * bgchanger: a shallow embedding of [bgchanger.py]

    The program picks a topic, obtains one image for it (from the Pexels
    search service, or from a local directory), and sets it as the desktop
    wallpaper.  It remembers the SHA-256 digests of the images it has
    downloaded in a JSON file, so that no downloaded image is used twice.

    The embedding is a state-and-exception monad over a record that holds
    the attributes of the one [BackgroundChanger] object together with the
    part of the world the program acts on: the file tree, the position on
    the tape of random draws and the list of calls made to the outside
    (HTTP requests, the wallpaper call).  What the outside answers is read
    from an environment [Env].  [print] is not modelled. *)

From Stdlib Require Import Strings.Ascii Strings.String Strings.Byte.
From stdpp Require Import gmap strings list fin_maps.

(** ** Strings: [str.lower] and [PurePath.suffix] *)

(** [str.lower] on the ASCII letters (Rocq strings are byte strings). *)
Definition ascii_lower (c : ascii) : ascii :=
  let n := nat_of_ascii c in
  if (65 <=? n)%nat && (n <=? 90)%nat then ascii_of_nat (n + 32) else c.

Fixpoint lower (s : string) : string :=
  match s with
  | EmptyString => EmptyString
  | String c r => String (ascii_lower c) (lower r)
  end.

(** [name.rfind('.')], counting positions from [i]. *)
Fixpoint rfind_dot (s : string) (i : nat) : option nat :=
  match s with
  | EmptyString => None
  | String c r =>
      match rfind_dot r (S i) with
      | Some j => Some j
      | None => if Ascii.eqb c "." then Some i else None
      end
  end.

(** [PurePath.suffix] of a file name: [name[i:]] for [i = name.rfind('.')]
    when [0 < i < len(name) - 1], and the empty string otherwise. *)
Definition suffix (name : string) : string :=
  match rfind_dot name 0 with
  | Some i =>
      if (0 <? i)%nat && (S i <? String.length name)%nat
      then substring i (String.length name - i) name
      else ""
  | None => ""
  end.

Definition str_in (s : string) (l : list string) : bool :=
  existsb (String.eqb s) l.

(** ** Paths and the file tree *)

(** A relative path is the list of its components; [base / name] appends
    one component (the topics of [main] contain no separator). *)
Abbreviation path := (list string).

Definition path_join (p : path) (name : string) : path := p ++ [name].

#[warnings="-register-all"]
Inductive json : Type :=
  | JNull
  | JBool (b : bool)
  | JNum (z : Z)
  | JStr (s : string)
  | JArr (items : list json)
  | JObj (fields : list (string * json)).

(** What a file holds.  The text codec of [open(path, 'r')] and the
    [json] library are outside the program, so a file is represented by
    what they make of it.  [JsonText v]: the bytes decode to a JSON text,
    for which [json.load] returns [v]; [json.dump v] writes such a file.
    [Undecodable data]: the codec rejects the bytes, and reading the file
    raises [UnicodeDecodeError].  [Raw data]: the bytes decode to a text
    that is not JSON, on which [json.load] raises [JSONDecodeError]; what
    [f.write] stores is kept as [Raw] too, whatever the bytes, since the
    program never opens an image file for reading. *)
Inductive content : Type :=
  | Raw (data : list byte)
  | JsonText (v : json)
  | Undecodable (data : list byte).

Inductive node : Type :=
  | File (c : content)
  | Dir.

(** ** Constants of the module *)

Definition PEXELS_API_URL : string := "https://api.pexels.com/v1/search".
Definition WALLPAPERS_DIR : path := ["wallpapers"].
Definition HASH_FILE : string := "image_hashes.json".

(** ** Elements of the Python set [used_hashes]

    [set(json.load(f))] can hold any hashable JSON scalar.  [True] and [1]
    (and [False] and [0]) are the same set element in Python; both are
    [KNum]. JSON numbers with a fraction are not modelled. *)
Inductive key : Type :=
  | KStr (s : string)
  | KNum (z : Z)
  | KNone.

#[global] Instance key_eq_dec : EqDecision key.
Proof. solve_decision. Defined.

#[global] Instance key_countable : Countable key.
Proof.
  refine (inj_countable'
    (fun k => match k with
              | KStr s => inl s
              | KNum z => inr (inl z)
              | KNone => inr (inr ())
              end)
    (fun x => match x with
              | inl s => KStr s
              | inr (inl z) => KNum z
              | inr (inr _) => KNone
              end) _).
  by intros [].
Defined.

(** ** The outside world *)

Record photo := Photo {
  photo_id : option string;        (* [photo['id']], as [str] prints it *)
  photo_original : option string;  (* [photo["src"]["original"]] *)
}.

(** The body of a search reply: not JSON, or an object whose ["photos"]
    entry (the empty list when the key is missing) is a list of objects.
    Fields a photo lacks are [None]; reading them raises [KeyError]. *)
Inductive search_body : Type :=
  | NotJson
  | Photos (photos : list photo).

Inductive response (B : Type) : Type :=
  | TransportError                     (* [requests.get] raises *)
  | Reply (status : nat) (body : B).
Arguments TransportError {B}.
Arguments Reply {B} status body.

Inductive spi_result : Type :=
  | SpiNonZero
  | SpiZero
  | SpiRaises.

Record Env := {
  getenv_pexels_api_key : option string;
  sha256_hexdigest : list byte → string;
  search_api : option string → string → nat → nat → response search_body;
  fetch_url : string → response (list byte);
  SystemParametersInfoW : path → spi_result;
  random_tape : nat → nat;
  getcwd : path;
}.

Inductive event : Type :=
  | HttpSearch (auth : option string) (query : string) (per_page page : nat)
  | HttpFetch (url : string)
  | SetDeskWallpaper (abs_path : path).

(** ** State: the object and the world *)

Record State := {
  api_key : option string;          (* [self.api_key] *)
  used_hashes : gset key;           (* [self.used_hashes] *)
  fs : gmap path node;              (* the file tree below the working directory *)
  locked : gset path;               (* files whose [open] fails with an I/O error *)
  tape_pos : nat;                   (* draws taken from [random_tape] *)
  events : list event;              (* calls made so far, oldest first *)
}.

Definition base_dir : path := WALLPAPERS_DIR.
Definition hash_file_path : path := path_join base_dir HASH_FILE.

Definition set_api_key (k : option string) (s : State) : State :=
  {| api_key := k; used_hashes := used_hashes s; fs := fs s;
     locked := locked s; tape_pos := tape_pos s; events := events s |}.
Definition set_used_hashes (h : gset key) (s : State) : State :=
  {| api_key := api_key s; used_hashes := h; fs := fs s;
     locked := locked s; tape_pos := tape_pos s; events := events s |}.
Definition set_fs (m : gmap path node) (s : State) : State :=
  {| api_key := api_key s; used_hashes := used_hashes s; fs := m;
     locked := locked s; tape_pos := tape_pos s; events := events s |}.
Definition set_tape_pos (n : nat) (s : State) : State :=
  {| api_key := api_key s; used_hashes := used_hashes s; fs := fs s;
     locked := locked s; tape_pos := n; events := events s |}.
Definition add_event (e : event) (s : State) : State :=
  {| api_key := api_key s; used_hashes := used_hashes s; fs := fs s;
     locked := locked s; tape_pos := tape_pos s; events := events s ++ [e] |}.

(** ** The monad: state and Python exceptions *)

Inductive exn : Type :=
  | RequestException
  | OSError             (* [IOError] is [OSError] *)
  | JSONDecodeError
  | KeyError
  | TypeError
  | IndexError
  | UnicodeDecodeError  (* a [ValueError], and no [JSONDecodeError] *)
  | SystemExit (code : nat).

#[global] Instance exn_eq_dec : EqDecision exn.
Proof. solve_decision. Defined.

Inductive outcome (A : Type) : Type :=
  | Ret (a : A)
  | Raise (e : exn).
Arguments Ret {A} a.
Arguments Raise {A} e.

Definition M (A : Type) : Type := State → outcome A * State.

Definition ret {A} (a : A) : M A := fun s => (Ret a, s).
Definition raise {A} (e : exn) : M A := fun s => (Raise e, s).
Definition bind {A B} (m : M A) (k : A → M B) : M B :=
  fun s => match m s with
           | (Ret a, s') => k a s'
           | (Raise e, s') => (Raise e, s')
           end.
Definition get : M State := fun s => (Ret s, s).
Definition modify (f : State → State) : M unit := fun s => (Ret (), f s).

(** [isinstance(e, cls)]: [requests.RequestException] derives from
    [IOError]; the other classes modelled are unrelated. *)
Definition isinstance (e cls : exn) : bool :=
  bool_decide (e = cls)
  || (bool_decide (e = RequestException) && bool_decide (cls = OSError)).

(** The first [except] clause, in order, one of whose classes matches. *)
Fixpoint dispatch {A} (e : exn) (clauses : list (list exn * M A))
  : option (M A) :=
  match clauses with
  | [] => None
  | (classes, h) :: rest =>
      if existsb (isinstance e) classes then Some h else dispatch e rest
  end.

(** [try: m  except C1: h1  except C2: h2 ...]: a handler runs in the
    state the exception was raised in, and what it raises is not caught
    by the clauses beside it. *)
Definition try_except {A} (m : M A) (clauses : list (list exn * M A)) : M A :=
  fun s => match m s with
           | (Ret a, s') => (Ret a, s')
           | (Raise e, s') =>
               match dispatch e clauses with
               | Some h => h s'
               | None => (Raise e, s')
               end
           end.

(** The classes [except Exception] catches ([SystemExit] is not one). *)
Definition Exception : list exn :=
  [RequestException; OSError; JSONDecodeError; KeyError; TypeError; IndexError;
   UnicodeDecodeError].

Declare Scope py_scope.
Delimit Scope py_scope with py.
Notation "x <- m ;; k" := (bind m (fun x => k))
  (at level 100, m at next level, right associativity) : py_scope.
Notation "m ;;; k" := (bind m (fun _ => k))
  (at level 100, right associativity) : py_scope.
Open Scope py_scope.

(** ** Files *)

Definition parent (p : path) : path := removelast p.

(** The working directory itself ([[]]) is a directory. *)
Definition is_dir (m : gmap path node) (p : path) : bool :=
  match p with
  | [] => true
  | _ => match m !! p with Some Dir => true | _ => false end
  end.

Definition is_file (m : gmap path node) (p : path) : bool :=
  match m !! p with Some (File _) => true | _ => false end.

(** [Path.exists()] *)
Definition path_exists (p : path) : M bool :=
  s <- get;; ret (bool_decide (is_Some (fs s !! p))).

(** [Path.mkdir(exist_ok=True)]: nothing to do for a directory that is
    there; [FileExistsError] when a file has the name, [FileNotFoundError]
    when the parent is missing (both are [OSError]s). *)
Definition mkdir_exist_ok (p : path) : M unit :=
  s <- get;;
  match fs s !! p with
  | Some Dir => ret ()
  | Some (File _) => raise OSError
  | None =>
      if is_dir (fs s) (parent p)
      then modify (set_fs (<[p := Dir]> (fs s)))
      else raise OSError
  end.

(** Whether [open(p, 'w')] succeeds. *)
Definition writable (s : State) (p : path) : bool :=
  bool_decide (p ∉ locked s)
  && match fs s !! p with Some Dir => false | _ => true end
  && is_dir (fs s) (parent p).

(** [with open(p, 'r') as f: ... f.read()] *)
Definition open_read (p : path) : M content :=
  s <- get;;
  if bool_decide (p ∈ locked s) then raise OSError
  else match fs s !! p with
       | Some (File c) => ret c
       | _ => raise OSError
       end.

(** [with open(p, 'w') as f: f.write(c)] (also ['wb']): the file is
    replaced as a whole, or [open] fails and nothing changes. *)
Definition open_write (p : path) (c : content) : M unit :=
  s <- get;;
  if writable s p then modify (set_fs (<[p := File c]> (fs s)))
  else raise OSError.

(** The entries of directory [p].  The order in which the system lists
    them is not modelled: the list is in the key order of the map. *)
Definition children (m : gmap path node) (p : path) : list path :=
  filter (fun k => k ≠ [] ∧ parent k = p) (map_to_list m).*1.

(** [Path.iterdir()]: [NotADirectoryError] or [FileNotFoundError] (both
    [OSError]s) when [p] is not a directory. *)
Definition iterdir (p : path) : M (list path) :=
  s <- get;;
  match fs s !! p with
  | Some Dir => ret (children (fs s) p)
  | _ => raise OSError
  end.

(** [Path.name] and [Path.suffix] *)
Definition name_of (p : path) : string := default "" (last p).
Definition path_suffix (p : path) : string := suffix (name_of p).

(** ** The [json] library and [set] *)

(** [json.load(f)] on a file opened in text mode: [f.read()] decodes the
    bytes, then the text is parsed. *)
Definition json_load (c : content) : M json :=
  match c with
  | JsonText v => ret v
  | Raw _ => raise JSONDecodeError
  | Undecodable _ => raise UnicodeDecodeError
  end.

(** An element of a list given to [set]: lists and dicts are unhashable. *)
Definition hashable (v : json) : option key :=
  match v with
  | JStr s => Some (KStr s)
  | JNum z => Some (KNum z)
  | JBool b => Some (KNum (if b then 1 else 0))
  | JNull => Some KNone
  | JArr _ | JObj _ => None
  end.

(** [set(v)]: the elements of a list, the keys of a dict, the characters
    of a string; [TypeError] for an unhashable element and for a value
    that is not iterable. *)
Definition py_set (v : json) : M (gset key) :=
  match v with
  | JArr items =>
      match mapM hashable items with
      | Some ks => ret (list_to_set ks)
      | None => raise TypeError
      end
  | JObj fields => ret (list_to_set ((fun kv => KStr (fst kv)) <$> fields))
  | JStr s =>
      ret (list_to_set ((fun c => KStr (String c "")) <$> list_ascii_of_string s))
  | JNull | JBool _ | JNum _ => raise TypeError
  end.

Definition key_to_json (k : key) : json :=
  match k with
  | KStr s => JStr s
  | KNum z => JNum z
  | KNone => JNull
  end.

(** [list(self.used_hashes)], ready for [json.dump] *)
Definition json_of_set (h : gset key) : json :=
  JArr (key_to_json <$> elements h).

(** ** The [random] module *)

Section Program.
Context (E : Env).

(** [Random._randbelow(n)]: the next draw of the tape, reduced below [n]. *)
Definition randbelow (n : nat) : M nat :=
  s <- get;;
  modify (set_tape_pos (S (tape_pos s)));;;
  ret (random_tape E (tape_pos s) mod n).

(** [random.randint(a, b)] is [a + _randbelow(b - a + 1)]. *)
Definition randint (a b : nat) : M nat :=
  r <- randbelow (b + 1 - a);; ret (a + r).

(** [random.choice(seq)] is [seq[_randbelow(len(seq))]], and raises
    [IndexError] on an empty sequence. *)
Definition random_choice {A} (seq : list A) : M A :=
  match seq with
  | [] => raise IndexError
  | _ =>
      i <- randbelow (length seq);;
      match seq !! i with
      | Some x => ret x
      | None => raise IndexError
      end
  end.

(** [x[i], x[j] = x[j], x[i]] *)
Definition swap {A} (x : list A) (i j : nat) : list A :=
  match x !! i, x !! j with
  | Some a, Some b => <[j := a]> (<[i := b]> x)
  | _, _ => x
  end.

(** [for i in reversed(range(1, len(x))): j = randbelow(i + 1); swap] *)
Fixpoint shuffle_from {A} (i : nat) (x : list A) : M (list A) :=
  match i with
  | 0 => ret x
  | S i' => j <- randbelow (S i);; shuffle_from i' (swap x i j)
  end.

Definition shuffle {A} (x : list A) : M (list A) :=
  shuffle_from (length x - 1) x.

End Program.

(** ** class BackgroundChanger *)

Section BackgroundChanger.
Context (E : Env).

Definition DEFAULT_API_KEY : option string := getenv_pexels_api_key E.

(** [a or b] on optional strings: [None] and [""] are falsy. *)
Definition py_or (a b : option string) : option string :=
  match a with
  | Some "" | None => b
  | Some _ => a
  end.

Definition load_used_hashes : M (gset key) :=
  e <- path_exists hash_file_path;;
  if e then
    try_except
      (c <- open_read hash_file_path;;
       v <- json_load c;;
       py_set v)
      [([JSONDecodeError; OSError], ret ∅)]
  else ret ∅.

Definition save_used_hashes : M unit :=
  try_except
    (s <- get;;
     open_write hash_file_path (JsonText (json_of_set (used_hashes s))))
    [([OSError], ret ())].

Definition get_image_hash (image_data : list byte) : string :=
  sha256_hexdigest E image_data.

(** [os.path.abspath] *)
Definition abspath (p : path) : path := getcwd E ++ p.

Definition set_wallpaper (image_path : path) : M bool :=
  try_except
    (let abs_path := abspath image_path in
     modify (add_event (SetDeskWallpaper abs_path));;;
     match SystemParametersInfoW E abs_path with
     | SpiNonZero => ret true
     | SpiZero => ret false
     | SpiRaises => raise OSError
     end)
    [(Exception, ret false)].

(** The statuses [raise_for_status] turns into an [HTTPError] *)
Definition http_error (status : nat) : bool :=
  (400 <=? status)%nat && (status <? 600)%nat.

(** A request that ends in a [RequestException] *)
Definition request_fails {B} (r : response B) : bool :=
  match r with
  | TransportError => true
  | Reply status _ => http_error status
  end.

(** [requests.get(...)], [raise_for_status()] and the body of the reply;
    [HTTPError] and the connection errors are [RequestException]s. *)
Definition raise_for_status {B} (r : response B) : M B :=
  match r with
  | TransportError => raise RequestException
  | Reply status body =>
      if http_error status then raise RequestException else ret body
  end.

(** Lines 107-108: [self.used_hashes.add(h); self.save_used_hashes()] *)
Definition add_used_hash (image_hash : string) : M unit :=
  modify (fun s => set_used_hashes ({[KStr image_hash]} ∪ used_hashes s) s);;;
  save_used_hashes.

Definition download_image (url : string) (save_path : path) : M (option path) :=
  try_except
    (modify (add_event (HttpFetch url));;;
     image_data <- raise_for_status (fetch_url E url);;
     let image_hash := get_image_hash image_data in
     s <- get;;
     if bool_decide (KStr image_hash ∈ used_hashes s) then ret None
     else
       open_write save_path (Raw image_data);;;
       add_used_hash image_hash;;;
       ret (Some save_path))
    [([RequestException], ret None);
     ([OSError], ret None)].

Definition image_extensions : list string :=
  [".jpg"; ".jpeg"; ".png"; ".bmp"; ".gif"].

(** The list comprehension of [get_local_image] over a directory listing *)
Definition image_files_of (m : gmap path node) (entries : list path) : list path :=
  filter (fun f => is_file m f
                   && str_in (lower (path_suffix f)) image_extensions) entries.

Definition get_local_image (query_term : string) : M (option path) :=
  let query_dir := path_join base_dir query_term in
  e <- path_exists query_dir;;
  if negb e then ret None
  else
    entries <- iterdir query_dir;;
    s <- get;;
    let image_files := image_files_of (fs s) entries in
    match image_files with
    | [] => ret None
    | _ => selected_image <- random_choice E image_files;;
           ret (Some selected_image)
    end.

(** One field of a photo: [KeyError] when it is missing. *)
Definition getitem (field : option string) : M string :=
  match field with
  | Some v => ret v
  | None => raise KeyError
  end.

(** The [for photo in photos] loop of [fetch_from_pexels] *)
Fixpoint try_photos (query_term : string) (photos : list photo)
  : M (option path) :=
  match photos with
  | [] => ret None
  | photo :: rest =>
      image_url <- getitem (photo_original photo);;
      id <- getitem (photo_id photo);;
      let filename := ("pexels_" +:+ id +:+ ".jpg")%string in
      let query_dir := path_join base_dir query_term in
      mkdir_exist_ok query_dir;;;
      let save_path := path_join query_dir filename in
      e <- path_exists save_path;;
      if e then try_photos query_term rest
      else
        downloaded_path <- download_image image_url save_path;;
        match downloaded_path with
        | Some p => ret (Some p)
        | None => try_photos query_term rest
        end
  end.

(** [response.json()] and [data.get("photos", [])] *)
Definition response_photos (body : search_body) : M (list photo) :=
  match body with
  | NotJson => raise JSONDecodeError
  | Photos photos => ret photos
  end.

Definition fetch_from_pexels (query_term : string) : M (option path) :=
  try_except
    (s <- get;;
     let auth := api_key s in
     page <- randint E 1 10;;
     modify (add_event (HttpSearch auth query_term 80 page));;;
     body <- raise_for_status (search_api E auth query_term 80 page);;
     photos <- response_photos body;;
     match photos with
     | [] => get_local_image query_term;;; ret None
     | _ => shuffled <- shuffle E photos;;
            try_photos query_term shuffled
     end)
    [([RequestException], ret None);
     ([KeyError; JSONDecodeError], ret None)].

Definition change_background (query_term : string) (local_only : bool) : M bool :=
  image_path <- (if local_only then get_local_image query_term
                 else fetch_from_pexels query_term);;
  match image_path with
  | Some p => set_wallpaper p
  | None => ret false
  end.

(** [BackgroundChanger.__init__] *)
Definition init (credential : option string) : M unit :=
  modify (set_api_key (py_or credential DEFAULT_API_KEY));;;
  h <- load_used_hashes;;
  modify (set_used_hashes h);;;
  mkdir_exist_ok base_dir.

(** ** main *)

Definition term_list : list string :=
  ["mountains"; "polygon"; "abstract"; "4k wallpaper"; "landscape"].

Definition truthy : list string := ["true"; "1"; "yes"; "on"].

(** Lines 222-226: the mode the command line selects *)
Definition local_only_of (argv : list string) : bool :=
  if (2 <? length argv)%nat
  then str_in (lower (default "" (argv !! 1))) truthy
  else false.

Definition main (argv : list string) : M unit :=
  if (length argv <? 1)%nat then raise (SystemExit 1)
  else
    query_term <- random_choice E term_list;;
    let local_only := local_only_of argv in
    init None;;;
    success <- change_background query_term local_only;;
    if success then ret () else raise (SystemExit 1).

End BackgroundChanger.

(** ** Relations between the state before and after a computation *)

(** [m] takes every state to a state related to it by [R], whether it
    returns or raises. *)
Definition preserves {A} (R : relation State) (m : M A) : Prop :=
  ∀ s, R s (snd (m s)).

(** The hash file is what it was. *)
Definition same_hash_file : relation State :=
  fun s s' => fs s' !! hash_file_path = fs s !! hash_file_path.

(** The digests in memory and the whole file tree are what they were. *)
Definition same_store : relation State :=
  fun s s' => used_hashes s' = used_hashes s ∧ fs s' = fs s.

(** Calls are only ever appended. *)
Definition more_events : relation State :=
  fun s s' => events s `prefix_of` events s'.

Definition is_fetch (e : event) : bool :=
  match e with HttpFetch _ => true | _ => false end.

Definition is_network (e : event) : bool :=
  match e with HttpSearch _ _ _ _ | HttpFetch _ => true | _ => false end.

(** [self.used_hashes.add(h); self.save_used_hashes()] for each digest of
    a list, in order. *)
Fixpoint add_all (hs : list string) : M unit :=
  match hs with
  | [] => ret ()
  | h :: rest => add_used_hash h;;; add_all rest
  end.

(** The file [fetch_from_pexels] saves the photo [id] of topic [q] to. *)
Definition save_path_of (q id : string) : path :=
  path_join (path_join base_dir q) ("pexels_" +:+ id +:+ ".jpg").

(** [m] lets no exception out but those of [allowed]. *)
Definition raises_only {A} (allowed : list exn) (m : M A) : Prop :=
  ∀ s, match fst (m s) with Ret _ => True | Raise e => e ∈ allowed end.

(** The set of digests is what it was, or has one digest more that it
    did not hold. *)
Definition at_most_one_new (s s' : State) : Prop :=
  used_hashes s' = used_hashes s
  ∨ ∃ h, (h ∉ used_hashes s) ∧ used_hashes s' = {[h]} ∪ used_hashes s.

(** Whether an event is the wallpaper call *)
Definition is_wallpaper_call (e : event) : bool :=
  match e with SetDeskWallpaper _ => true | _ => false end.

(** ** Matching up to case, in the words of the specification

    These two definitions are not taken from the code, which lower-cases
    the suffix and looks it up; they say what "one of jpg, jpeg, png,
    bmp, gif, case-insensitively" means, without [lower]. *)

(** The same character, or the same ASCII letter in its two cases *)
Definition same_letter (c d : ascii) : bool :=
  let n := nat_of_ascii c in
  let m := nat_of_ascii d in
  (n =? m)%nat
  || ((65 <=? n)%nat && (n <=? 90)%nat && (m =? n + 32)%nat)
  || ((65 <=? m)%nat && (m <=? 90)%nat && (n =? m + 32)%nat).

Fixpoint eq_nocase (s t : string) : bool :=
  match s, t with
  | EmptyString, EmptyString => true
  | String c s', String d t' => same_letter c d && eq_nocase s' t'
  | _, _ => false
  end.

Definition extensions : list string := ["jpg"; "jpeg"; "png"; "bmp"; "gif"].

(** ** Example worlds

    A service that rejects unauthenticated searches, knows two topics,
    and serves four images, two of them with the same bytes over a link
    that is down for one candidate. *)

Module Demo.

Definition digest (data : list byte) : string :=
  ("sha:" +:+ string_of_list_byte data)%string.

Definition sunrise : list byte := [x73; x75; x6e].
Definition lake : list byte := [x6c; x61; x6b; x65].

Definition photos : list photo :=
  [ Photo (Some "101") (Some "https://img.example/101");
    Photo (Some "102") (Some "https://img.example/102");
    Photo (Some "103") (Some "https://img.example/103") ].

Definition search (auth : option string) (query : string) (per_page page : nat)
  : response search_body :=
  match auth with
  | None => Reply 401 NotJson
  | Some _ =>
      if String.eqb query "mountains" then Reply 200 (Photos photos)
      else if String.eqb query "abstract" then Reply 200 (Photos [])
      else TransportError
  end.

Definition fetch (url : string) : response (list byte) :=
  if String.eqb url "https://img.example/101" then TransportError
  else if String.eqb url "https://img.example/102" then Reply 200 sunrise
  else if String.eqb url "https://img.example/103" then Reply 200 sunrise
  else if String.eqb url "https://img.example/104" then Reply 200 lake
  else Reply 404 [].

Definition env : Env := {|
  getenv_pexels_api_key := None;
  sha256_hexdigest := digest;
  search_api := search;
  fetch_url := fetch;
  SystemParametersInfoW := fun _ => SpiNonZero;
  random_tape := fun n => n;
  getcwd := ["C:"; "Users"; "me"];
|}.

Definition mk_state (credential : option string) (h : gset key)
    (m : gmap path node) (l : gset path) : State :=
  {| api_key := credential; used_hashes := h; fs := m; locked := l;
     tape_pos := 0; events := [] |}.

(** Only the wallpapers directory, no hash file. *)
Definition fresh_tree : gmap path node := {[ base_dir := Dir ]}.

(** A curated folder for the topic "abstract". *)
Definition local_tree : gmap path node :=
  <[ ["wallpapers"; "abstract"; "a.jpg"] := File (Raw lake) ]>
  (<[ ["wallpapers"; "abstract"; "b.txt"] := File (Raw lake) ]>
  (<[ ["wallpapers"; "abstract"; "c.PNG"] := File (Raw sunrise) ]>
  (<[ ["wallpapers"; "abstract"; "d.gif"] := Dir ]>
  (<[ ["wallpapers"; "abstract"] := Dir ]> fresh_tree)))).

(** A hash file that holds the JSON text [5]. *)
Definition scalar_tree : gmap path node :=
  <[ hash_file_path := File (JsonText (JNum 5)) ]> fresh_tree.

Definition fresh : State := mk_state (Some "secret") ∅ fresh_tree ∅.
(** The same, one draw further on the tape: the shuffle keeps the order. *)
Definition fresh_in_order : State := set_tape_pos 1 fresh.
Definition no_key : State := mk_state None ∅ fresh_tree ∅.
Definition curated : State := mk_state (Some "secret") ∅ local_tree ∅.
Definition scalar_hashes : State := mk_state None ∅ scalar_tree ∅.

(** The image folder of "mountains" is there and empty. *)
Definition shared : State :=
  mk_state (Some "secret") ∅
    (<[ ["wallpapers"; "mountains"] := Dir ]> fresh_tree) ∅.

(** The image folder of "mountains" exists but cannot be written to. *)
Definition read_only : State :=
  mk_state (Some "secret") ∅
    (<[ ["wallpapers"; "mountains"] := Dir ]> fresh_tree)
    {[ ["wallpapers"; "mountains"; "pexels_104.jpg"] ]}.

(** A hash file that lists two digests, one of them twice. *)
Definition listed : State :=
  mk_state None ∅
    (<[ hash_file_path :=
          File (JsonText (JArr [JStr "aa"; JStr "bb"; JStr "aa"])) ]> fresh_tree)
    ∅.

(** Every photo of "mountains" has been saved already. *)
Definition downloaded : State :=
  mk_state (Some "secret") ∅
    (<[ ["wallpapers"; "mountains"; "pexels_101.jpg"] := File (Raw lake) ]>
    (<[ ["wallpapers"; "mountains"; "pexels_102.jpg"] := File (Raw sunrise) ]>
    (<[ ["wallpapers"; "mountains"; "pexels_103.jpg"] := File (Raw lake) ]>
    (<[ ["wallpapers"; "mountains"] := Dir ]> fresh_tree)))) ∅.



(** A regular file bears the name of the folder of "mountains". *)
Definition blocked : State :=
  mk_state (Some "secret") ∅
    (<[ ["wallpapers"; "mountains"] := File (Raw lake) ]> fresh_tree) ∅.

End Demo.

(** * Properties *)

(** Unfold the monad and compute. *)
Ltac run :=
  unfold try_except, bind, get, ret, raise, modify in *; simpl in *.

(** ** The command line *)

Lemma lower_truthy_example : lower "YES" = "yes".
Proof. reflexivity. Qed.

(** With at least two arguments after the program name the first one
    decides the mode. *)
Lemma local_only_of_three flag extra rest :
  local_only_of ("bgchanger.py" :: flag :: extra :: rest)
  = str_in (lower flag) truthy.
Proof. reflexivity. Qed.

Lemma local_only_of_absent prog : local_only_of [prog] = false.
Proof. reflexivity. Qed.

(** C3 (the code departs from the claim).  [python bgchanger.py true], the
    invocation the usage text of [main] gives as its example, carries a
    single flag whose value is truthy, and still selects remote mode: the
    flag is only read when [len(sys.argv) > 2]. *)
Theorem single_truthy_flag_is_ignored :
  str_in (lower "true") truthy = true
  ∧ local_only_of ["bgchanger.py"; "true"] = false
  ∧ (∀ flag, local_only_of ["bgchanger.py"; flag] = false).
Proof. repeat split. Qed.

(** ** Loading the hash file *)





(** So does an array with an array or an object among its items. *)
Lemma load_unhashable_item s items :
  hash_file_path ∉ locked s →
  fs s !! hash_file_path = Some (File (JsonText (JArr items))) →
  mapM hashable items = None →
  load_used_hashes s = (Raise TypeError, s).
Proof.
  intros Hl Hfs Hitems. unfold load_used_hashes, path_exists, bind, get, ret.
  rewrite Hfs. rewrite bool_decide_eq_true_2 by eauto.
  unfold try_except, open_read, bind, get, ret, raise. rewrite Hfs.
  rewrite bool_decide_eq_false_2 by done. simpl. by rewrite Hitems.
Qed.

(** C5 (the code departs from the claim).  A hash file that holds the
    JSON text [5] is malformed, since it is not an array of digests, and
    yet [load_used_hashes] neither returns the empty set nor returns at
    all: the [TypeError] of [set(5)] leaves it, and leaves the constructor
    and [main] as well.  The three cases the handler names are recovered. *)
Theorem load_used_hashes_raises_on_scalar :
  fs Demo.scalar_hashes !! hash_file_path = Some (File (JsonText (JNum 5)))
  ∧ fst (load_used_hashes Demo.scalar_hashes) = Raise TypeError
  ∧ fst (init Demo.env None Demo.scalar_hashes) = Raise TypeError
  ∧ fst (main Demo.env ["bgchanger.py"] Demo.scalar_hashes) = Raise TypeError.
Proof. repeat split; vm_compute; reflexivity. Qed.

(** ** Composing frame properties *)

Section Preserves.
Context (R : relation State).
Hypothesis R_refl : ∀ s, R s s.
Hypothesis R_trans : ∀ s1 s2 s3, R s1 s2 → R s2 s3 → R s1 s3.

Lemma preserves_ret {A} (a : A) : preserves R (ret a).
Proof. intros s. apply R_refl. Qed.

Lemma preserves_raise {A} e : preserves R (@raise A e).
Proof. intros s. apply R_refl. Qed.

Lemma preserves_get : preserves R get.
Proof. intros s. apply R_refl. Qed.

Lemma preserves_modify f : (∀ s, R s (f s)) → preserves R (modify f).
Proof. intros Hf s. apply Hf. Qed.

Lemma preserves_bind {A B} (m : M A) (k : A → M B) :
  preserves R m → (∀ a, preserves R (k a)) → preserves R (bind m k).
Proof.
  intros Hm Hk s. unfold bind. specialize (Hm s).
  destruct (m s) as [[a|e] s']; simpl in *; [|done].
  eapply R_trans; [exact Hm|apply Hk].
Qed.

Lemma preserves_try_except {A} (m : M A) clauses :
  preserves R m → Forall (fun c => preserves R (snd c)) clauses →
  preserves R (try_except m clauses).
Proof.
  intros Hm Hc s. unfold try_except. specialize (Hm s).
  destruct (m s) as [[a|e] s']; simpl in *; [done|].
  destruct (dispatch e clauses) as [h|] eqn:Hd; simpl; [|done].
  eapply R_trans; [exact Hm|].
  clear Hm. induction Hc as [|[cl h'] rest Hh _ IH]; simpl in Hd; [done|].
  destruct (existsb (isinstance e) cl); [|by apply IH].
  inversion Hd; subst. apply Hh.
Qed.

End Preserves.

(** ** Symbolic evaluation of the methods *)

Lemma writable_add_event e s p : writable (add_event e s) p = writable s p.
Proof. reflexivity. Qed.

Lemma writable_set_used_hashes h s p :
  writable (set_used_hashes h s) p = writable s p.
Proof. reflexivity. Qed.

Lemma open_write_cases p c s :
  open_write p c s =
  if writable s p then (Ret (), set_fs (<[p := File c]> (fs s)) s)
  else (Raise OSError, s).
Proof. unfold open_write. run. by destruct (writable s p). Qed.

(** [save_used_hashes] never raises; it replaces the hash file by the
    whole set when the file can be written, and changes nothing otherwise. *)
Lemma save_used_hashes_cases s :
  save_used_hashes s =
  (Ret (),
   if writable s hash_file_path
   then set_fs (<[hash_file_path :=
                    File (JsonText (json_of_set (used_hashes s)))]> (fs s)) s
   else s).
Proof.
  unfold save_used_hashes, try_except, bind, get.
  rewrite open_write_cases. by destruct (writable s hash_file_path).
Qed.

Lemma add_used_hash_cases h s :
  add_used_hash h s =
  save_used_hashes (set_used_hashes ({[KStr h]} ∪ used_hashes s) s).
Proof. reflexivity. Qed.

(** ** The hash store: adding and loading again *)

Lemma hash_file_parent : parent hash_file_path = base_dir.
Proof. reflexivity. Qed.

(** Writing at [p'] changes nothing for a file [p] elsewhere whose
    directory is not [p'] either. *)
Lemma writable_insert_other s p p' n :
  p ≠ p' → parent p ≠ p' →
  writable (set_fs (<[p' := n]> (fs s)) s) p = writable s p.
Proof.
  intros Hne Hpar. unfold writable, is_dir. simpl.
  rewrite lookup_insert_ne by done.
  destruct (parent p) eqn:Hp; [done|].
  by rewrite lookup_insert_ne.
Qed.

(** Rewriting the hash file leaves it writable. *)
Lemma writable_after_save s c :
  writable s hash_file_path = true →
  writable (set_fs (<[hash_file_path := File c]> (fs s)) s) hash_file_path = true.
Proof.
  unfold writable. simpl. rewrite lookup_insert_eq.
  rewrite (lookup_insert_ne _ hash_file_path base_dir) by done.
  change (fs s !! ["wallpapers"]) with (fs s !! base_dir).
  rewrite !andb_true_iff. tauto.
Qed.

Lemma add_used_hash_returns h s : fst (add_used_hash h s) = Ret ().
Proof. by rewrite add_used_hash_cases, save_used_hashes_cases. Qed.

Lemma add_used_hash_set h s :
  used_hashes (snd (add_used_hash h s)) = {[KStr h]} ∪ used_hashes s.
Proof.
  rewrite add_used_hash_cases, save_used_hashes_cases. simpl.
  by destruct (writable _ _).
Qed.

Lemma add_used_hash_locked h s :
  locked (snd (add_used_hash h s)) = locked s.
Proof.
  rewrite add_used_hash_cases, save_used_hashes_cases. simpl.
  by destruct (writable _ _).
Qed.

(** When the hash file can be written, it holds the whole set right
    after the addition, and can be written again. *)
Lemma add_used_hash_file h s :
  writable s hash_file_path = true →
  fs (snd (add_used_hash h s)) !! hash_file_path
  = Some (File (JsonText (json_of_set (used_hashes (snd (add_used_hash h s))))))
  ∧ writable (snd (add_used_hash h s)) hash_file_path = true.
Proof.
  intros Hw. rewrite add_used_hash_cases, save_used_hashes_cases. simpl.
  rewrite writable_set_used_hashes, Hw. simpl. split.
  - by rewrite lookup_insert_eq.
  - by apply (writable_after_save (set_used_hashes _ s)).
Qed.

Lemma add_all_returns hs s : fst (add_all hs s) = Ret ().
Proof.
  revert s. induction hs as [|h hs IH]; intros s; [done|].
  simpl. unfold bind. pose proof (add_used_hash_returns h s) as Hr.
  destruct (add_used_hash h s) as [[[]|e] s1]; simpl in Hr; [|done].
  apply IH.
Qed.

Lemma add_all_cons h hs s :
  add_all (h :: hs) s = add_all hs (snd (add_used_hash h s)).
Proof.
  simpl. unfold bind. pose proof (add_used_hash_returns h s) as Hr.
  by destruct (add_used_hash h s) as [[[]|e] s1].
Qed.

Lemma add_all_set hs s k :
  k ∈ used_hashes (snd (add_all hs s)) ↔ k ∈ KStr <$> hs ∨ k ∈ used_hashes s.
Proof.
  revert s. induction hs as [|h hs IH]; intros s.
  - simpl. rewrite elem_of_nil. tauto.
  - rewrite add_all_cons, IH, add_used_hash_set, fmap_cons.
    rewrite elem_of_union, elem_of_singleton, elem_of_cons. tauto.
Qed.

Lemma add_all_locked hs s : locked (snd (add_all hs s)) = locked s.
Proof.
  revert s. induction hs as [|h hs IH]; intros s; [done|].
  by rewrite add_all_cons, IH, add_used_hash_locked.
Qed.

Lemma add_all_file hs s :
  writable s hash_file_path = true → hs ≠ [] →
  fs (snd (add_all hs s)) !! hash_file_path
  = Some (File (JsonText (json_of_set (used_hashes (snd (add_all hs s))))))
  ∧ writable (snd (add_all hs s)) hash_file_path = true.
Proof.
  revert s. induction hs as [|h hs IH]; intros s Hw Hne; [done|].
  rewrite add_all_cons.
  destruct (add_used_hash_file h s Hw) as [Hf Hw'].
  destruct hs as [|h' hs']; [done|].
  by apply IH.
Qed.

Lemma hashable_key_to_json k : hashable (key_to_json k) = Some k.
Proof. by destruct k. Qed.

(** Reading back what [json.dump(list(X))] wrote gives [X]. *)
Lemma load_after_dump (X : gset key) t :
  hash_file_path ∉ locked t →
  fs t !! hash_file_path = Some (File (JsonText (json_of_set X))) →
  load_used_hashes t = (Ret X, t).
Proof.
  intros Hl Hfs. unfold load_used_hashes, path_exists, open_read. run.
  rewrite Hfs. rewrite bool_decide_eq_true_2 by eauto.
  rewrite bool_decide_eq_false_2 by done. rewrite Hfs. simpl.
  rewrite (mapM_fmap_Some hashable key_to_json (elements X))
    by apply hashable_key_to_json.
  by rewrite list_to_set_elements_L.
Qed.

Lemma mkdir_exist_ok_used_hashes p s :
  used_hashes (snd (mkdir_exist_ok p s)) = used_hashes s.
Proof.
  unfold mkdir_exist_ok. run.
  destruct (fs s !! p) as [[c|]|]; try done.
  by destruct (is_dir (fs s) (parent p)).
Qed.

Lemma writable_not_locked s p : writable s p = true → p ∉ locked s.
Proof.
  unfold writable. rewrite !andb_true_iff, bool_decide_eq_true. tauto.
Qed.

(** C7.  Each addition puts the digest into the set in memory and at once
    rewrites the hash file with the whole set.  After any sequence of
    additions the set holds a digest exactly when it was added or was in
    the set before; and, the hash file being writable, the file holds the
    whole set, so that a load of that file by a new object returns the
    set, every added digest included. *)
Theorem add_then_fresh_load hs s :
  fst (add_all hs s) = Ret ()
  ∧ (∀ h, KStr h ∈ used_hashes (snd (add_all hs s))
          ↔ h ∈ hs ∨ KStr h ∈ used_hashes s)
  ∧ (writable s hash_file_path = true → hs ≠ [] →
     fs (snd (add_all hs s)) !! hash_file_path
     = Some (File (JsonText (json_of_set (used_hashes (snd (add_all hs s))))))
     ∧ ∀ t, fs t = fs (snd (add_all hs s)) →
            locked t = locked (snd (add_all hs s)) →
            load_used_hashes t = (Ret (used_hashes (snd (add_all hs s))), t)
            ∧ ∀ h, h ∈ hs → KStr h ∈ used_hashes (snd (add_all hs s))).
Proof.
  split; [apply add_all_returns|]. split.
  - intros h. rewrite add_all_set, list_elem_of_fmap. split.
    + intros [(h' & Heq & Hin)|?]; [left; by inversion Heq; subst|by right].
    + intros [?|?]; [left; eauto|by right].
  - intros Hw Hne. destruct (add_all_file hs s Hw Hne) as [Hf Hw'].
    split; [done|]. intros t Hfs Hlocked. split.
    + apply load_after_dump.
      * rewrite Hlocked. by apply writable_not_locked.
      * by rewrite Hfs.
    + intros h Hin. rewrite add_all_set. left.
      apply list_elem_of_fmap. eauto.
Qed.

Section Evaluation.
Context (E : Env).

(** Every path through [download_image]. *)
Lemma download_image_cases url p s :
  download_image E url p s =
  let s0 := add_event (HttpFetch url) s in
  match fetch_url E url with
  | TransportError => (Ret None, s0)
  | Reply status data =>
      if http_error status then (Ret None, s0)
      else if bool_decide (KStr (get_image_hash E data) ∈ used_hashes s)
      then (Ret None, s0)
      else if writable s p
      then (Ret (Some p),
            snd (add_used_hash (get_image_hash E data)
                   (set_fs (<[p := File (Raw data)]> (fs s)) s0)))
      else (Ret None, s0)
  end.
Proof.
  unfold download_image, try_except, bind at 1, modify. simpl.
  destruct (fetch_url E url) as [|status data]; simpl; [done|].
  unfold bind at 1.
  destruct (http_error status); simpl; [done|].
  unfold bind at 1, get. simpl.
  case_bool_decide; simpl; [done|].
  unfold bind at 1. rewrite open_write_cases, writable_add_event.
  destruct (writable s p); simpl; [|done].
  unfold bind. rewrite add_used_hash_cases, save_used_hashes_cases. done.
Qed.

(** [download_image] never raises. *)
Lemma download_image_returns url p s : ∃ r, fst (download_image E url p s) = Ret r.
Proof.
  rewrite download_image_cases. simpl.
  destruct (fetch_url E url); [by eexists|].
  repeat (case_match; try by eexists).
Qed.

(** A new object over a hash file that [json.dump(list(X))] wrote holds [X]. *)
Lemma init_after_dump (X : gset key) c t :
  hash_file_path ∉ locked t →
  fs t !! hash_file_path = Some (File (JsonText (json_of_set X))) →
  used_hashes (snd (init E c t)) = X.
Proof.
  intros Hl Hfs. unfold init, bind at 1, modify. simpl. unfold bind at 1.
  rewrite (load_after_dump X (set_api_key (py_or c (DEFAULT_API_KEY E)) t))
    by done.
  unfold bind, modify. simpl.
  pose proof (mkdir_exist_ok_used_hashes base_dir
    (set_used_hashes X (set_api_key (py_or c (DEFAULT_API_KEY E)) t))) as Hm.
  by destruct (mkdir_exist_ok base_dir _) as [[[]|e] t'].
Qed.

(** C9.  When the image file cannot be written, [download_image] reports
    failure, and the run is left as it was but for the request that was
    made: the set of digests in memory and every file, the hash file among
    them, are unchanged.  The digest is added only after [open] and
    [write] have gone through. *)
Theorem download_image_write_failure url p s :
  writable s p = false →
  download_image E url p s = (Ret None, add_event (HttpFetch url) s)
  ∧ used_hashes (snd (download_image E url p s)) = used_hashes s
  ∧ fs (snd (download_image E url p s)) = fs s.
Proof.
  intros Hw. rewrite download_image_cases. simpl. rewrite Hw.
  destruct (fetch_url E url) as [|status data]; [done|].
  destruct (http_error status); [done|]. by case_bool_decide.
Qed.

Lemma randbelow_cases n s :
  randbelow E n s =
  (Ret (random_tape E (tape_pos s) mod n), set_tape_pos (S (tape_pos s)) s).
Proof. reflexivity. Qed.

Lemma random_choice_cases {A} (seq : list A) s :
  seq ≠ [] →
  ∃ x, seq !! (random_tape E (tape_pos s) mod length seq) = Some x
       ∧ random_choice E seq s = (Ret x, set_tape_pos (S (tape_pos s)) s).
Proof.
  intros Hne.
  destruct (lookup_lt_is_Some_2 seq (random_tape E (tape_pos s) mod length seq))
    as [x Hx].
  { apply Nat.mod_upper_bound. by destruct seq. }
  exists x. split; [done|].
  destruct seq; [done|]. unfold random_choice, bind at 1.
  rewrite randbelow_cases. by rewrite Hx.
Qed.

(** Every path through [get_local_image]. *)
Lemma get_local_image_cases q s :
  get_local_image E q s =
  let query_dir := path_join base_dir q in
  match fs s !! query_dir with
  | None => (Ret None, s)
  | Some (File _) => (Raise OSError, s)
  | Some Dir =>
      let image_files := image_files_of (fs s) (children (fs s) query_dir) in
      match image_files !! (random_tape E (tape_pos s) mod length image_files) with
      | None => (Ret None, s)
      | Some f => (Ret (Some f), set_tape_pos (S (tape_pos s)) s)
      end
  end.
Proof.
  unfold get_local_image, path_exists, iterdir. run.
  destruct (fs s !! path_join base_dir q) as [[c|]|] eqn:Hfs; simpl.
  - by rewrite Hfs.
  - rewrite Hfs.
    destruct (image_files_of _ _) as [|f l] eqn:Hl; [done|].
    destruct (random_choice_cases (f :: l) s) as (x & Hx & Hr); [done|].
    by rewrite Hr, Hx.
  - done.
Qed.

Lemma set_wallpaper_cases p s :
  set_wallpaper E p s =
  (Ret (match SystemParametersInfoW E (abspath E p) with
        | SpiNonZero => true
        | _ => false
        end),
   add_event (SetDeskWallpaper (abspath E p)) s).
Proof.
  unfold set_wallpaper. run.
  by destruct (SystemParametersInfoW E (abspath E p)).
Qed.

(** ** The local variant *)

Lemma parent_path_join p name : parent (path_join p name) = p.
Proof. apply removelast_last. Qed.

Lemma name_of_path_join p name : name_of (path_join p name) = name.
Proof. unfold name_of, path_join. by rewrite last_snoc. Qed.

Lemma child_iff (p k : path) :
  k ≠ [] ∧ parent k = p ↔ ∃ name, k = path_join p name.
Proof.
  split.
  - intros [Hne <-]. exists (List.last k "").
    by apply app_removelast_last.
  - intros [name ->]. split; [by destruct p|apply parent_path_join].
Qed.

Lemma elem_of_children (m : gmap path node) p k :
  k ∈ children m p ↔ (∃ name, k = path_join p name) ∧ is_Some (m !! k).
Proof.
  unfold children. rewrite list_elem_of_filter, child_iff.
  apply and_iff_compat_l. rewrite list_elem_of_fmap. split.
  - intros [[k' n] [-> Hin]]. apply elem_of_map_to_list in Hin. eauto.
  - intros [n Hn]. exists (k, n). split; [done|].
    by apply elem_of_map_to_list.
Qed.

Lemma NoDup_children (m : gmap path node) p : NoDup (children m p).
Proof. apply NoDup_filter, NoDup_fst_map_to_list. Qed.

Lemma str_in_iff s l : str_in s l = true ↔ s ∈ l.
Proof.
  unfold str_in. rewrite existsb_exists, list_elem_of_In. split.
  - intros (x & Hin & Heq). by apply String.eqb_eq in Heq as ->.
  - intros Hin. exists s. split; [done|apply String.eqb_refl].
Qed.

Lemma is_file_iff (m : gmap path node) f :
  is_file m f = true ↔ ∃ c, m !! f = Some (File c).
Proof.
  unfold is_file. destruct (m !! f) as [[c|]|]; split; try done; eauto.
  - by intros [? ?].
  - by intros [? ?].
Qed.

(** The files [get_local_image] chooses from are exactly the regular
    files directly inside the directory whose suffix, in lower case, is
    one of the five extensions. *)
Lemma elem_of_image_files (m : gmap path node) p f :
  f ∈ image_files_of m (children m p) ↔
  ∃ name c, f = path_join p name
            ∧ m !! f = Some (File c)
            ∧ lower (suffix name) ∈ image_extensions.
Proof.
  unfold image_files_of. rewrite list_elem_of_filter, elem_of_children.
  rewrite andb_True, !Is_true_true, is_file_iff, str_in_iff. split.
  - intros [[[c Hc] Hs] [[name ->] _]]. exists name, c.
    unfold path_suffix in Hs. by rewrite name_of_path_join in Hs.
  - intros (name & c & -> & Hc & Hs). repeat split; eauto.
    unfold path_suffix. by rewrite name_of_path_join.
Qed.

Lemma NoDup_image_files (m : gmap path node) p :
  NoDup (image_files_of m (children m p)).
Proof. apply NoDup_filter, NoDup_children. Qed.

(** The files of the specification's example: among [a.jpg], [b.txt],
    [c.PNG] and a directory [d.gif], two can be selected. *)
Example image_files_example :
  image_files_of Demo.local_tree
    (children Demo.local_tree (path_join base_dir "abstract"))
  = [ ["wallpapers"; "abstract"; "a.jpg"];
      ["wallpapers"; "abstract"; "c.PNG"] ].
Proof. vm_compute. reflexivity. Qed.

(** [str.lower] against matching up to case: a string is lower-cased
    to a string without capitals exactly when the two match up to case. *)
Lemma ascii_lower_eq_iff c d :
  ascii_lower d = d → (ascii_lower c = d ↔ same_letter c d = true).
Proof.
  unfold ascii_lower, same_letter. cbv zeta.
  pose proof (nat_ascii_bounded c) as Hc.
  pose proof (nat_ascii_bounded d) as Hd.
  pose proof (ascii_nat_embedding c) as Ec.
  pose proof (ascii_nat_embedding d) as Ed.
  remember (nat_of_ascii c) as n eqn:En.
  remember (nat_of_ascii d) as m eqn:Em.
  intros Hlow.
  assert (¬ (65 ≤ m ≤ 90)) as Hm.
  { destruct ((65 <=? m)%nat && (m <=? 90)%nat) eqn:Hb.
    - apply andb_true_iff in Hb as [?%Nat.leb_le ?%Nat.leb_le].
      apply (f_equal nat_of_ascii) in Hlow.
      rewrite nat_ascii_embedding, <- Em in Hlow by lia. lia.
    - apply andb_false_iff in Hb as [?%Nat.leb_gt|?%Nat.leb_gt]; lia. }
  rewrite !orb_true_iff, !andb_true_iff, !Nat.eqb_eq, !Nat.leb_le.
  destruct ((65 <=? n)%nat && (n <=? 90)%nat) eqn:Hn.
  - apply andb_true_iff in Hn as [?%Nat.leb_le ?%Nat.leb_le]. split.
    + intros Heq. apply (f_equal nat_of_ascii) in Heq.
      rewrite nat_ascii_embedding, <- Em in Heq by lia. lia.
    + intros Hs. rewrite <- Ed. f_equal. lia.
  - apply andb_false_iff in Hn. split.
    + intros Heq. left. left. congruence.
    + intros Hs. assert (n = m) as Heq.
      { destruct Hn as [?%Nat.leb_gt|?%Nat.leb_gt]; lia. }
      rewrite <- Ec, <- Ed. by rewrite Heq.
Qed.

Lemma lower_eq_iff s t : lower t = t → (lower s = t ↔ eq_nocase s t = true).
Proof.
  revert t. induction s as [|c s IH]; intros [|d t] Ht;
    cbn [lower eq_nocase] in *; try done.
  injection Ht as Hd Ht'.
  rewrite andb_true_iff, <- (ascii_lower_eq_iff c d Hd), <- (IH t Ht').
  split; [by intros [= -> ->]|by intros [-> ->]].
Qed.

(** What [f.suffix.lower() in image_extensions] decides *)
Lemma image_extension_iff sfx :
  lower sfx ∈ image_extensions ↔
  ∃ ext, ext ∈ extensions ∧ eq_nocase sfx ("." +:+ ext) = true.
Proof.
  change image_extensions with ((fun ext => "." +:+ ext) <$> extensions).
  rewrite list_elem_of_fmap.
  assert (∀ ext, ext ∈ extensions → lower ("." +:+ ext) = "." +:+ ext) as Hlow.
  { intros ext Hin. unfold extensions in Hin.
    repeat (apply elem_of_cons in Hin as [->|Hin]; [reflexivity|]).
    by apply elem_of_nil in Hin. }
  split.
  - intros (ext & Heq & Hin). exists ext. split; [done|].
    by apply (lower_eq_iff sfx _ (Hlow ext Hin)).
  - intros (ext & Hin & Heq). exists ext. split; [|done].
    by apply (lower_eq_iff sfx _ (Hlow ext Hin)).
Qed.

(** C8 (the code departs from the claim).  What [get_local_image] does,
    in full.  It chooses among exactly the regular files directly inside
    the topic's directory whose suffix is, up to the case of its letters,
    one of .jpg, .jpeg, .png, .bmp, .gif, each listed once.  It reports
    failure when nothing has the directory's name and when no file
    matches; with a matching file it returns the one at the position
    [_randbelow] draws, so that each matching file is returned for exactly
    one of the equally likely values of the draw.  But when a regular
    file has the directory's name, so that the directory does not exist,
    it does not report failure: it raises [OSError]. *)
Theorem get_local_image_outcomes q s :
  let query_dir := path_join base_dir q in
  let eligible := image_files_of (fs s) (children (fs s) query_dir) in
  (∀ f, f ∈ eligible ↔
        ∃ name c ext, f = path_join query_dir name
                      ∧ fs s !! f = Some (File c)
                      ∧ ext ∈ extensions
                      ∧ eq_nocase (suffix name) ("." +:+ ext) = true)
  ∧ NoDup eligible
  ∧ match fs s !! query_dir with
    | None => get_local_image E q s = (Ret None, s)
    | Some (File _) => get_local_image E q s = (Raise OSError, s)
    | Some Dir =>
        match eligible with
        | [] => get_local_image E q s = (Ret None, s)
        | _ :: _ =>
            ∃ f, eligible !! (random_tape E (tape_pos s) mod length eligible)
                 = Some f
                 ∧ get_local_image E q s
                   = (Ret (Some f), set_tape_pos (S (tape_pos s)) s)
        end
    end
  ∧ (∀ f, f ∈ eligible →
     ∃ k, (k < length eligible ∧ eligible !! k = Some f)
          ∧ ∀ k', eligible !! k' = Some f → k' = k).
Proof.
  intros query_dir eligible. split; [|split; [|split]].
  - intros f. unfold eligible. rewrite elem_of_image_files. split.
    + intros (name & c & Hf & Hc & Hs).
      apply image_extension_iff in Hs as (ext & Hin & Heq).
      by exists name, c, ext.
    + intros (name & c & ext & Hf & Hc & Hin & Heq).
      exists name, c. split; [done|]. split; [done|].
      apply image_extension_iff. by exists ext.
  - apply NoDup_image_files.
  - rewrite get_local_image_cases. simpl. fold query_dir.
    destruct (fs s !! query_dir) as [[c|]|]; try done. fold eligible.
    destruct eligible as [|f0 rest] eqn:Hel; [done|].
    destruct (lookup_lt_is_Some_2 (f0 :: rest)
                (random_tape E (tape_pos s) mod length (f0 :: rest)))
      as [f Hf].
    { apply Nat.mod_upper_bound. done. }
    exists f. by rewrite Hf.
  - intros f Hin. apply list_elem_of_lookup in Hin as [k Hk].
    exists k. split.
    + split; [by eapply lookup_lt_Some|done].
    + intros k' Hk'. eapply NoDup_lookup; eauto. apply NoDup_image_files.
Qed.

(** ** Local-only mode *)

Lemma same_store_refl s : same_store s s.
Proof. done. Qed.

Lemma same_store_trans s1 s2 s3 :
  same_store s1 s2 → same_store s2 s3 → same_store s1 s3.
Proof. intros [? ?] [? ?]. split; congruence. Qed.

Lemma same_hash_file_refl s : same_hash_file s s.
Proof. done. Qed.

Lemma same_hash_file_trans s1 s2 s3 :
  same_hash_file s1 s2 → same_hash_file s2 s3 → same_hash_file s1 s3.
Proof. unfold same_hash_file. congruence. Qed.

Lemma same_store_hash_file s s' : same_store s s' → same_hash_file s s'.
Proof. intros [_ Hfs]. unfold same_hash_file. by rewrite Hfs. Qed.

Lemma get_local_image_same_store q : preserves same_store (get_local_image E q).
Proof.
  intros s. rewrite get_local_image_cases. simpl.
  destruct (fs s !! path_join base_dir q) as [[c|]|]; try done.
  by destruct (_ !! _).
Qed.

Lemma set_wallpaper_same_store p : preserves same_store (set_wallpaper E p).
Proof. intros s. by rewrite set_wallpaper_cases. Qed.

Lemma change_background_local_same_store q :
  preserves same_store (change_background E q true).
Proof.
  unfold change_background.
  apply preserves_bind;
    [apply same_store_trans|apply get_local_image_same_store|].
  intros [p|]; [apply set_wallpaper_same_store|].
  apply preserves_ret, same_store_refl.
Qed.

(** [load_used_hashes] only reads. *)
Lemma load_used_hashes_state s : snd (load_used_hashes s) = s.
Proof.
  unfold load_used_hashes, path_exists, open_read, json_load, py_set. run.
  case_bool_decide; [|done]. simpl.
  case_bool_decide; [done|].
  destruct (fs s !! hash_file_path) as [[[data|v|data]|]|]; try done. simpl.
  destruct v; simpl; try done.
  by destruct (mapM hashable items).
Qed.

Lemma mkdir_base_dir_same_hash_file :
  preserves same_hash_file (mkdir_exist_ok base_dir).
Proof.
  intros s. unfold mkdir_exist_ok. run.
  destruct (fs s !! base_dir) as [[c|]|]; try done.
  unfold same_hash_file. simpl. by rewrite lookup_insert_ne.
Qed.

Lemma init_same_hash_file c : preserves same_hash_file (init E c).
Proof.
  intros s. unfold init, bind at 1, modify. simpl.
  unfold bind at 1.
  pose proof (load_used_hashes_state (set_api_key (py_or c (DEFAULT_API_KEY E)) s))
    as Hl.
  destruct (load_used_hashes _) as [[h|e] s1]; simpl in Hl; subst s1; [|done].
  unfold bind, modify. simpl.
  apply (mkdir_base_dir_same_hash_file
           (set_used_hashes h (set_api_key (py_or c (DEFAULT_API_KEY E)) s))).
Qed.

Lemma random_choice_same_hash_file {A} (l : list A) :
  preserves same_hash_file (random_choice E l).
Proof.
  intros s. destruct l as [|a l]; [done|].
  destruct (random_choice_cases (a :: l) s) as (x & _ & ->); done.
Qed.

(** C10.  With [local_only] true, [change_background] leaves the digests
    in memory and the whole file tree, the hash file included, as they
    were.  It makes no network call: when [get_local_image] returns a
    file the one call made is the wallpaper call on its absolute path,
    and otherwise no call is made.  A whole run of [main] in local-only
    mode leaves the hash file as it was. *)
Theorem local_only_keeps_hash_state q s :
  same_store s (snd (change_background E q true s))
  ∧ match fst (get_local_image E q s) with
    | Ret (Some p) =>
        events (snd (change_background E q true s))
        = events s ++ [SetDeskWallpaper (abspath E p)]
    | _ => events (snd (change_background E q true s)) = events s
    end
  ∧ (∀ argv, local_only_of argv = true →
             same_hash_file s (snd (main E argv s))).
Proof.
  split; [apply change_background_local_same_store|]. split.
  - unfold change_background, bind. rewrite get_local_image_cases. simpl.
    destruct (fs s !! path_join base_dir q) as [[c|]|]; try done.
    destruct (_ !! _); [|done]. by rewrite set_wallpaper_cases.
  - intros argv Hlocal. unfold main. rewrite Hlocal.
    destruct (length argv <? 1)%nat; [done|].
    apply preserves_bind;
      [apply same_hash_file_trans|apply random_choice_same_hash_file|].
    intros query_term.
    apply preserves_bind;
      [apply same_hash_file_trans|apply init_same_hash_file|].
    intros _.
    apply preserves_bind; [apply same_hash_file_trans| |].
    + intros s'. apply same_store_hash_file,
        change_background_local_same_store.
    + intros [|]; [apply preserves_ret|apply preserves_raise];
        apply same_hash_file_refl.
Qed.

(** ** The remote variant *)

Lemma swap_Permutation {A} (x : list A) i j : swap x i j ≡ₚ x.
Proof.
  unfold swap. destruct (x !! i) as [a|] eqn:Hi; [|done].
  destruct (x !! j) as [b|] eqn:Hj; [|done].
  by apply Permutation_insert_swap.
Qed.

(** [random.shuffle] returns, and what it returns is a rearrangement of
    the candidates. *)
Lemma shuffle_Permutation {A} (x : list A) s :
  ∃ y, fst (shuffle E x s) = Ret y ∧ y ≡ₚ x.
Proof.
  unfold shuffle. generalize (length x - 1) as i. intros i. revert x s.
  induction i as [|i IH]; intros x s; simpl.
  - by exists x.
  - unfold bind. rewrite randbelow_cases.
    destruct (IH (swap x (S i) (random_tape E (tape_pos s) mod S (S i)))
                (set_tape_pos (S (tape_pos s)) s)) as (y & Hy & Hp).
    exists y. split; [done|]. by rewrite Hp, swap_Permutation.
Qed.

Lemma mkdir_exist_ok_present p s :
  fs s !! p = Some Dir → mkdir_exist_ok p s = (Ret (), s).
Proof. intros Hd. unfold mkdir_exist_ok. run. by rewrite Hd. Qed.

(** One turn of the loop, for a candidate that has both fields and whose
    directory could be made: skip it when its file is there, return what
    was downloaded, or go on after a download that gave nothing. *)
Lemma try_photos_step q id url rest s s1 :
  mkdir_exist_ok (path_join base_dir q) s = (Ret (), s1) →
  try_photos E q (Photo (Some id) (Some url) :: rest) s =
  match fs s1 !! save_path_of q id with
  | Some _ => try_photos E q rest s1
  | None =>
      match download_image E url (save_path_of q id) s1 with
      | (Ret (Some p), s2) => (Ret (Some p), s2)
      | (Ret None, s2) => try_photos E q rest s2
      | (Raise e, s2) => (Raise e, s2)
      end
  end.
Proof.
  intros Hmk. simpl. unfold getitem. simpl.
  unfold bind at 1, ret. unfold bind at 1.
  unfold bind at 1. rewrite Hmk.
  unfold path_exists. unfold bind at 1, bind at 1, get, ret.
  fold (save_path_of q id).
  destruct (fs s1 !! save_path_of q id) as [n|] eqn:Hp.
  - by rewrite bool_decide_eq_true_2 by eauto.
  - rewrite bool_decide_eq_false_2 by (by intros [? ?]).
    unfold bind.
    by destruct (download_image E url (save_path_of q id) s1) as [[[?|]|?] ?].
Qed.

Lemma save_path_of_inj q id1 id2 :
  save_path_of q id1 = save_path_of q id2 → id1 = id2.
Proof.
  unfold save_path_of, path_join. intros Heq.
  apply app_inj_tail in Heq as [_ Heq].
  unfold String.append in Heq. simpl in Heq. inversion Heq as [Heq'].
  clear Heq. revert id2 Heq'.
  induction id1 as [|c id1 IH]; intros [|c' id2]; simpl; intros Heq'.
  - done.
  - inversion Heq' as [[Hc Hr]]. subst.
    destruct id2 as [|? [|? [|? [|? ?]]]]; simpl in Hr; discriminate.
  - inversion Heq' as [[Hc Hr]]. subst.
    destruct id1 as [|? [|? [|? [|? ?]]]]; simpl in Hr; discriminate.
  - inversion Heq' as [[Hc Hr]]. f_equal. by apply IH.
Qed.

Lemma save_path_not_hash_file q id : save_path_of q id ≠ hash_file_path.
Proof. intros Heq. apply (f_equal length) in Heq. discriminate Heq. Qed.

Lemma save_path_not_base_dir q id : save_path_of q id ≠ base_dir.
Proof. intros Heq. apply (f_equal length) in Heq. discriminate Heq. Qed.

Lemma save_path_not_query_dir q id : save_path_of q id ≠ path_join base_dir q.
Proof. intros Heq. apply (f_equal length) in Heq. discriminate Heq. Qed.

(** A download whose bytes have a digest that is in the set gives
    nothing and writes nothing, and the loop goes on. *)
Lemma known_digest_skipped q id url status data rest s :
  fetch_url E url = Reply status data → http_error status = false →
  KStr (get_image_hash E data) ∈ used_hashes s →
  fs s !! path_join base_dir q = Some Dir →
  fs s !! save_path_of q id = None →
  download_image E url (save_path_of q id) s
  = (Ret None, add_event (HttpFetch url) s)
  ∧ try_photos E q (Photo (Some id) (Some url) :: rest) s
    = try_photos E q rest (add_event (HttpFetch url) s).
Proof.
  intros Hfetch Hok Hin Hdir Hnew.
  assert (download_image E url (save_path_of q id) s
          = (Ret None, add_event (HttpFetch url) s)) as Hd.
  { rewrite download_image_cases. simpl. rewrite Hfetch, Hok.
    by rewrite bool_decide_eq_true_2. }
  split; [done|].
  rewrite (try_photos_step q id url rest s s) by by apply mkdir_exist_ok_present.
  by rewrite Hnew, Hd.
Qed.

(** A download whose bytes are new is written to the candidate's path,
    its digest is added, the hash file is rewritten, and the loop ends. *)
Lemma new_digest_saved q id url status data rest s :
  fetch_url E url = Reply status data → http_error status = false →
  KStr (get_image_hash E data) ∉ used_hashes s →
  fs s !! path_join base_dir q = Some Dir →
  fs s !! save_path_of q id = None →
  writable s (save_path_of q id) = true →
  writable s hash_file_path = true →
  let h := {[KStr (get_image_hash E data)]} ∪ used_hashes s in
  try_photos E q (Photo (Some id) (Some url) :: rest) s
  = (Ret (Some (save_path_of q id)),
     set_fs (<[hash_file_path := File (JsonText (json_of_set h))]>
               (<[save_path_of q id := File (Raw data)]> (fs s)))
       (set_used_hashes h (add_event (HttpFetch url) s))).
Proof.
  intros Hfetch Hok Hnotin Hdir Hnew Hw Hwh h.
  rewrite (try_photos_step q id url rest s s) by by apply mkdir_exist_ok_present.
  rewrite Hnew, download_image_cases. simpl. rewrite Hfetch, Hok.
  rewrite bool_decide_eq_false_2 by done. rewrite Hw.
  rewrite add_used_hash_cases, save_used_hashes_cases. simpl.
  rewrite writable_set_used_hashes.
  rewrite (writable_insert_other (add_event (HttpFetch url) s)).
  - by rewrite writable_add_event, Hwh.
  - apply not_eq_sym, save_path_not_hash_file.
  - rewrite hash_file_parent. apply not_eq_sym, save_path_not_base_dir.
Qed.

(** C6.  Two candidates with different identifiers whose downloads are
    the same bytes, new to the set.  The loop saves the first to its
    path, adds its digest and rewrites the hash file with the whole set,
    and returns.  From then on the second is recognised by its digest:
    its download gives nothing and leaves every file as it was, and the
    loop goes on with the candidates after it: in the state the first
    left (after skipping the first, whose file is there), and in any
    state that holds the digest, as that of every object built later over
    the files the first left. *)
Theorem duplicate_bytes_skipped q id1 id2 url1 url2 st1 st2 data rest s :
  let p1 := Photo (Some id1) (Some url1) in
  let p2 := Photo (Some id2) (Some url2) in
  let h := KStr (get_image_hash E data) in
  id1 ≠ id2 →
  fetch_url E url1 = Reply st1 data → http_error st1 = false →
  fetch_url E url2 = Reply st2 data → http_error st2 = false →
  h ∉ used_hashes s →
  fs s !! path_join base_dir q = Some Dir →
  fs s !! save_path_of q id1 = None →
  fs s !! save_path_of q id2 = None →
  writable s (save_path_of q id1) = true →
  writable s hash_file_path = true →
  ∃ s1,
    try_photos E q (p1 :: p2 :: rest) s = (Ret (Some (save_path_of q id1)), s1)
    ∧ fs s1 !! save_path_of q id1 = Some (File (Raw data))
    ∧ used_hashes s1 = {[h]} ∪ used_hashes s
    ∧ fs s1 !! hash_file_path
      = Some (File (JsonText (json_of_set (used_hashes s1))))
    ∧ events s1 = events s ++ [HttpFetch url1]
    ∧ download_image E url2 (save_path_of q id2) s1
      = (Ret None, add_event (HttpFetch url2) s1)
    ∧ try_photos E q (p1 :: p2 :: rest) s1
      = try_photos E q rest (add_event (HttpFetch url2) s1)
    ∧ (∀ t c, fs t = fs s1 → locked t = locked s1 →
              h ∈ used_hashes (snd (init E c t)))
    ∧ ∀ s2, h ∈ used_hashes s2 →
            fs s2 !! path_join base_dir q = Some Dir →
            fs s2 !! save_path_of q id2 = None →
            try_photos E q (p2 :: rest) s2
            = try_photos E q rest (add_event (HttpFetch url2) s2).
Proof.
  intros p1 p2 h Hid Hf1 Hok1 Hf2 Hok2 Hnotin Hdir Hnew1 Hnew2 Hw Hwh.
  eexists. split.
  { by apply (new_digest_saved q id1 url1 st1 data). }
  set (s1 := set_fs _ _).
  assert (fs s1 !! save_path_of q id1 = Some (File (Raw data))) as Hp1.
  { simpl. rewrite lookup_insert_ne by apply not_eq_sym, save_path_not_hash_file.
    apply lookup_insert_eq. }
  assert (hash_file_path ≠ path_join base_dir q) as Hqdir.
  { intros Heq. unfold writable in Hwh. rewrite Heq, Hdir in Hwh.
    by rewrite andb_false_r in Hwh. }
  assert (fs s1 !! path_join base_dir q = Some Dir) as Hdir1.
  { simpl. rewrite lookup_insert_ne by done.
    by rewrite lookup_insert_ne by apply save_path_not_query_dir. }
  assert (fs s1 !! save_path_of q id2 = None) as Hp2.
  { simpl. rewrite lookup_insert_ne by apply not_eq_sym, save_path_not_hash_file.
    rewrite lookup_insert_ne; [done|].
    intros Heq. by apply save_path_of_inj in Heq. }
  assert (h ∈ used_hashes s1) as Hin.
  { simpl. apply elem_of_union_l. by apply elem_of_singleton. }
  destruct (known_digest_skipped q id2 url2 st2 data rest s1) as [Hd Hl]; try done.
  assert (fs s1 !! hash_file_path
          = Some (File (JsonText (json_of_set (used_hashes s1))))) as Hfile.
  { simpl. apply lookup_insert_eq. }
  split; [done|]. split; [done|]. split; [done|].
  split; [done|]. split; [done|]. split; [|split].
  - unfold p1.
    rewrite (try_photos_step q id1 url1 (p2 :: rest) s1 s1)
      by by apply mkdir_exist_ok_present.
    by rewrite Hp1.
  - intros t c Hfs Hlocked.
    rewrite (init_after_dump (used_hashes s1)); [done| |by rewrite Hfs].
    rewrite Hlocked. exact (writable_not_locked s _ Hwh).
  - intros s2 Hin2 Hdir2 Hnew. by eapply known_digest_skipped.
Qed.

(** C2, as the code has it.  A transport error while fetching a
    candidate's bytes is caught inside [download_image]: the call returns
    [None] and raises nothing, the URL has been requested once and is not
    requested again, and no file and no digest has changed.  The loop of
    [fetch_from_pexels] then goes on with the candidates that remain. *)
Theorem transport_error_skips_candidate q id url rest s s1 :
  mkdir_exist_ok (path_join base_dir q) s = (Ret (), s1) →
  fs s1 !! save_path_of q id = None →
  fetch_url E url = TransportError →
  download_image E url (save_path_of q id) s1
  = (Ret None, add_event (HttpFetch url) s1)
  ∧ try_photos E q (Photo (Some id) (Some url) :: rest) s
    = try_photos E q rest (add_event (HttpFetch url) s1).
Proof.
  intros Hmk Hnew Hfetch.
  assert (download_image E url (save_path_of q id) s1
          = (Ret None, add_event (HttpFetch url) s1)) as Hd.
  { rewrite download_image_cases. simpl. by rewrite Hfetch. }
  split; [done|].
  by rewrite (try_photos_step q id url rest s s1 Hmk), Hnew, Hd.
Qed.

(** ** Calls are only appended *)

Lemma more_events_refl s : more_events s s.
Proof. unfold more_events. done. Qed.

Lemma more_events_trans s1 s2 s3 :
  more_events s1 s2 → more_events s2 s3 → more_events s1 s3.
Proof. unfold more_events. by etrans. Qed.

Lemma more_events_same s s' : events s' = events s → more_events s s'.
Proof. unfold more_events. by intros ->. Qed.

Lemma randbelow_more_events n : preserves more_events (randbelow E n).
Proof. intros s. rewrite randbelow_cases. by apply more_events_same. Qed.

Lemma random_choice_more_events {A} (l : list A) :
  preserves more_events (random_choice E l).
Proof.
  intros s. destruct l as [|a l]; [apply more_events_refl|].
  destruct (random_choice_cases (a :: l) s) as (x & _ & ->); [done|].
  by apply more_events_same.
Qed.

Lemma shuffle_more_events {A} (l : list A) : preserves more_events (shuffle E l).
Proof.
  unfold shuffle. generalize (length l - 1) as i. intros i. revert l.
  induction i as [|i IH]; intros l; simpl.
  { intros s. apply more_events_refl. }
  apply preserves_bind;
    [apply more_events_trans|apply randbelow_more_events|intros j; apply IH].
Qed.

Lemma mkdir_exist_ok_more_events p : preserves more_events (mkdir_exist_ok p).
Proof.
  intros s. unfold mkdir_exist_ok. run.
  destruct (fs s !! p) as [[c|]|]; try (by apply more_events_same).
  destruct (is_dir (fs s) (parent p)); by apply more_events_same.
Qed.

Lemma save_used_hashes_events s : events (snd (save_used_hashes s)) = events s.
Proof. rewrite save_used_hashes_cases. simpl. by destruct (writable _ _). Qed.

(** [download_image] makes one call, the request for the URL. *)
Lemma download_image_events url p s :
  events (snd (download_image E url p s)) = events s ++ [HttpFetch url].
Proof.
  rewrite download_image_cases. simpl.
  destruct (fetch_url E url) as [|status data]; [done|].
  destruct (http_error status); [done|]. case_bool_decide; [done|].
  destruct (writable s p); [|done]. simpl.
  by rewrite add_used_hash_cases, save_used_hashes_events.
Qed.

Lemma download_image_more_events url p :
  preserves more_events (download_image E url p).
Proof.
  intros s. unfold more_events. rewrite download_image_events.
  by apply prefix_app_r.
Qed.

(** [get_local_image] makes no call. *)
Lemma get_local_image_events q s :
  events (snd (get_local_image E q s)) = events s.
Proof.
  rewrite get_local_image_cases. simpl.
  destruct (fs s !! path_join base_dir q) as [[c|]|]; try done.
  by destruct (_ !! _).
Qed.

Lemma getitem_more_events field : preserves more_events (getitem field).
Proof. destruct field as [v|]; intros st; apply more_events_refl. Qed.

Lemma path_exists_more_events p : preserves more_events (path_exists p).
Proof. intros s. apply more_events_refl. Qed.

Lemma try_photos_more_events q photos :
  preserves more_events (try_photos E q photos).
Proof.
  induction photos as [|photo rest IH]; simpl.
  { intros s. apply more_events_refl. }
  apply preserves_bind;
    [apply more_events_trans|apply getitem_more_events|intros image_url].
  apply preserves_bind;
    [apply more_events_trans|apply getitem_more_events|intros id].
  apply preserves_bind;
    [apply more_events_trans|apply mkdir_exist_ok_more_events|intros _].
  apply preserves_bind;
    [apply more_events_trans|apply path_exists_more_events|intros e].
  destruct e; [apply IH|].
  apply preserves_bind;
    [apply more_events_trans|apply download_image_more_events|intros d].
  destruct d; [|apply IH]. intros s. apply more_events_refl.
Qed.

Lemma raise_for_status_fails {B} (r : response B) s :
  request_fails r = true → raise_for_status r s = (Raise RequestException, s).
Proof.
  destruct r as [|status body]; simpl; [done|].
  unfold raise_for_status. by intros ->.
Qed.

(** The first steps of [fetch_from_pexels]: a page is drawn and the
    search is requested with whatever [self.api_key] holds. *)
Lemma fetch_from_pexels_request q s :
  let page := 1 + random_tape E (tape_pos s) mod 10 in
  let s1 := add_event (HttpSearch (api_key s) q 80 page)
              (set_tape_pos (S (tape_pos s)) s) in
  fetch_from_pexels E q s =
  try_except
    (body <- raise_for_status (search_api E (api_key s) q 80 page);;
     photos <- response_photos body;;
     match photos with
     | [] => get_local_image E q;;; ret None
     | _ => shuffled <- shuffle E photos;; try_photos E q shuffled
     end)
    [([RequestException], ret None); ([KeyError; JSONDecodeError], ret None)]
    s1.
Proof. reflexivity. Qed.

(** With no photo in the reply, [fetch_from_pexels] calls
    [get_local_image] for the same topic, makes no further request, and
    returns [None] whatever the local variant returned. *)
Lemma fetch_from_pexels_zero_results q s status :
  let page := 1 + random_tape E (tape_pos s) mod 10 in
  let s1 := add_event (HttpSearch (api_key s) q 80 page)
              (set_tape_pos (S (tape_pos s)) s) in
  search_api E (api_key s) q 80 page = Reply status (Photos []) →
  http_error status = false →
  fetch_from_pexels E q s =
  match get_local_image E q s1 with
  | (Ret _, s2) => (Ret None, s2)
  | (Raise e, s2) => (Raise e, s2)
  end
  ∧ events (snd (fetch_from_pexels E q s)) = events s1.
Proof.
  intros page s1 Hsearch Hok.
  assert (fetch_from_pexels E q s =
          match get_local_image E q s1 with
          | (Ret _, s2) => (Ret None, s2)
          | (Raise e, s2) => (Raise e, s2)
          end) as Heq.
  { rewrite fetch_from_pexels_request. fold page. fold s1. rewrite Hsearch.
    unfold try_except, raise_for_status. rewrite Hok.
    unfold bind at 1, ret. unfold bind at 1. simpl. unfold bind.
    rewrite get_local_image_cases. simpl.
    destruct (fs s !! path_join base_dir q) as [[c|]|]; try done.
    by destruct (_ !! _). }
  split; [done|]. rewrite Heq.
  pose proof (get_local_image_events q s1) as Hev.
  by destruct (get_local_image E q s1) as [[r|e] s2].
Qed.

Lemma raise_for_status_more_events {B} (r : response B) :
  preserves more_events (raise_for_status r).
Proof.
  intros s. destruct r as [|status body]; [apply more_events_refl|].
  unfold raise_for_status. destruct (http_error status); apply more_events_refl.
Qed.

(** What [fetch_from_pexels] does once the reply [r] is in only adds calls. *)
Lemma fetch_from_pexels_rest_more_events q (r : response search_body) :
  preserves more_events
    (try_except
       (body <- raise_for_status r;;
        photos <- response_photos body;;
        match photos with
        | [] => get_local_image E q;;; ret None
        | _ => shuffled <- shuffle E photos;; try_photos E q shuffled
        end)
       [([RequestException], ret None); ([KeyError; JSONDecodeError], ret None)]).
Proof.
  apply preserves_try_except; [apply more_events_trans| |].
  - apply preserves_bind;
      [apply more_events_trans|apply raise_for_status_more_events|intros body].
    apply preserves_bind; [apply more_events_trans| |intros photos].
    + destruct body; intros st; apply more_events_refl.
    + destruct photos as [|photo photos].
      * apply preserves_bind; [apply more_events_trans| |].
        -- intros st. apply more_events_same, get_local_image_events.
        -- intros _ st. apply more_events_refl.
      * apply preserves_bind;
          [apply more_events_trans|apply shuffle_more_events
          |intros shuffled; apply try_photos_more_events].
  - repeat constructor; intros st; apply more_events_refl.
Qed.

(** C4, as the code has it.  With no credential, [fetch_from_pexels]
    checks nothing: its first call is the search request, sent without a
    credential for a page between 1 and 10.  The path fails when that
    request fails, by a transport error or an error status, and then
    nothing else has been called and no file or digest has changed. *)
Theorem missing_credential_is_not_checked q s :
  api_key s = None →
  let page := 1 + random_tape E (tape_pos s) mod 10 in
  1 ≤ page ≤ 10
  ∧ events s ++ [HttpSearch None q 80 page]
    `prefix_of` events (snd (fetch_from_pexels E q s))
  ∧ (request_fails (search_api E None q 80 page) = true →
     fetch_from_pexels E q s
     = (Ret None, add_event (HttpSearch None q 80 page)
                    (set_tape_pos (S (tape_pos s)) s))).
Proof.
  intros Hkey page. split.
  { unfold page. pose proof (Nat.mod_upper_bound (random_tape E (tape_pos s)) 10).
    lia. }
  rewrite fetch_from_pexels_request. fold page. rewrite Hkey. split.
  - apply (fetch_from_pexels_rest_more_events q
             (search_api E None q 80 page)
             (add_event (HttpSearch None q 80 page)
                (set_tape_pos (S (tape_pos s)) s))).
  - intros Hfail. unfold try_except, bind at 1.
    by rewrite raise_for_status_fails.
Qed.

End Evaluation.

(** ** The properties at work in the example worlds *)

Lemma get_local_image_outcomes_witness :
  get_local_image Demo.env "mountains" Demo.blocked
  = (Raise OSError, Demo.blocked)
  ∧ ["wallpapers"; "abstract"; "c.PNG"]
    ∈ image_files_of (fs Demo.curated)
        (children (fs Demo.curated) (path_join base_dir "abstract")).
Proof.
  split.
  - destruct (get_local_image_outcomes Demo.env "mountains" Demo.blocked)
      as (_ & _ & Hrun & _).
    assert (fs Demo.blocked !! path_join base_dir "mountains"
            = Some (File (Raw Demo.lake))) as Hfs by (vm_compute; reflexivity).
    rewrite Hfs in Hrun. exact Hrun.
  - destruct (get_local_image_outcomes Demo.env "abstract" Demo.curated)
      as (Hiff & _).
    apply Hiff. exists "c.PNG", (Raw Demo.sunrise), "png".
    split; [reflexivity|]. split; [vm_compute; reflexivity|].
    split; [repeat constructor|reflexivity].
Defined.

Lemma local_only_keeps_hash_state_witness :
  local_only_of ["bgchanger.py"; "on"; "x"] = true
  ∧ same_hash_file Demo.curated
      (snd (main Demo.env ["bgchanger.py"; "on"; "x"] Demo.curated)).
Proof.
  split; [reflexivity|].
  apply (local_only_keeps_hash_state Demo.env "" Demo.curated). reflexivity.
Defined.

Lemma add_then_fresh_load_witness :
  load_used_hashes
    (Demo.mk_state None ∅ (fs (snd (add_all ["aa"; "bb"] Demo.fresh))) ∅)
  = (Ret (used_hashes (snd (add_all ["aa"; "bb"] Demo.fresh))),
     Demo.mk_state None ∅ (fs (snd (add_all ["aa"; "bb"] Demo.fresh))) ∅).
Proof.
  destruct (add_then_fresh_load ["aa"; "bb"] Demo.fresh) as (_ & _ & Hfile).
  destruct Hfile as [_ Hload]; [vm_compute; reflexivity|discriminate|].
  apply Hload; [reflexivity|vm_compute; reflexivity].
Defined.

Lemma duplicate_bytes_skipped_witness :
  ∃ s1,
    try_photos Demo.env "mountains" (tl Demo.photos) Demo.shared
    = (Ret (Some (save_path_of "mountains" "102")), s1)
    ∧ try_photos Demo.env "mountains" (tl Demo.photos) s1
      = try_photos Demo.env "mountains" []
          (add_event (HttpFetch "https://img.example/103") s1).
Proof.
  assert ("102" ≠ "103") as Hid by discriminate.
  assert (fetch_url Demo.env "https://img.example/102" = Reply 200 Demo.sunrise)
    as Hf1 by reflexivity.
  assert (fetch_url Demo.env "https://img.example/103" = Reply 200 Demo.sunrise)
    as Hf2 by reflexivity.
  assert (http_error 200 = false) as Hok by reflexivity.
  assert (KStr (get_image_hash Demo.env Demo.sunrise) ∉ used_hashes Demo.shared)
    as Hnew by apply not_elem_of_empty.
  assert (fs Demo.shared !! path_join base_dir "mountains" = Some Dir)
    as Hdir by (vm_compute; reflexivity).
  assert (fs Demo.shared !! save_path_of "mountains" "102" = None)
    as Hp1 by (vm_compute; reflexivity).
  assert (fs Demo.shared !! save_path_of "mountains" "103" = None)
    as Hp2 by (vm_compute; reflexivity).
  assert (writable Demo.shared (save_path_of "mountains" "102") = true)
    as Hw by (vm_compute; reflexivity).
  assert (writable Demo.shared hash_file_path = true)
    as Hwh by (vm_compute; reflexivity).
  destruct (duplicate_bytes_skipped Demo.env "mountains" "102" "103"
              "https://img.example/102" "https://img.example/103"
              200 200 Demo.sunrise [] Demo.shared
              Hid Hf1 Hok Hf2 Hok Hnew Hdir Hp1 Hp2 Hw Hwh)
    as (s1 & Hfirst & _ & _ & _ & _ & _ & Hagain & _).
  exists s1. split; [exact Hfirst|exact Hagain].
Defined.

Lemma transport_error_skips_candidate_witness :
  try_photos Demo.env "mountains" Demo.photos Demo.shared
  = try_photos Demo.env "mountains" (tl Demo.photos)
      (add_event (HttpFetch "https://img.example/101") Demo.shared).
Proof.
  apply (transport_error_skips_candidate Demo.env "mountains" "101"
           "https://img.example/101" (tl Demo.photos) Demo.shared Demo.shared);
    vm_compute; reflexivity.
Defined.

(** C2 as the specification states it fails.  The link of photo 101 is down,
    and 101 is the first candidate after the shuffle; the attempt does
    not fail but goes on to photo 102, downloads it and returns its path. *)
Lemma transport_error_does_not_fail_the_attempt :
  fetch_url Demo.env "https://img.example/101" = TransportError
  ∧ fst (fetch_from_pexels Demo.env "mountains" Demo.fresh_in_order)
    = Ret (Some (save_path_of "mountains" "102"))
  ∧ events (snd (fetch_from_pexels Demo.env "mountains" Demo.fresh_in_order))
    = [ HttpSearch (Some "secret") "mountains" 80 2;
        HttpFetch "https://img.example/101";
        HttpFetch "https://img.example/102" ].
Proof. repeat split; vm_compute; reflexivity. Qed.

Lemma missing_credential_is_not_checked_witness :
  fetch_from_pexels Demo.env "mountains" Demo.no_key
  = (Ret None, add_event (HttpSearch None "mountains" 80 1)
                 (set_tape_pos 1 Demo.no_key)).
Proof.
  apply (missing_credential_is_not_checked Demo.env "mountains" Demo.no_key);
    reflexivity.
Defined.

(** C4 as the specification states it fails.  An object built with no key
    in the arguments and none in the environment holds no credential, and
    its remote variant sends the search request all the same. *)
Lemma missing_credential_sends_the_request :
  getenv_pexels_api_key Demo.env = None
  ∧ api_key (snd (init Demo.env None Demo.no_key)) = None
  ∧ events (snd (fetch_from_pexels Demo.env "mountains"
                   (snd (init Demo.env None Demo.no_key))))
    = [HttpSearch None "mountains" 80 1]
  ∧ existsb is_network
      (events (snd (fetch_from_pexels Demo.env "mountains"
                      (snd (init Demo.env None Demo.no_key))))) = true.
Proof. repeat split; vm_compute; reflexivity. Qed.

(** C1 (the code departs from the claim).  The search for "abstract"
    returns no photo and the folder of "abstract" holds eligible images.
    [fetch_from_pexels] makes no download and does call the local
    variant, which picks [c.PNG]; but the value is dropped, the result is
    [None], and [change_background] sets no wallpaper. *)
Theorem zero_results_drop_the_local_image :
  search_api Demo.env (Some "secret") "abstract" 80 1 = Reply 200 (Photos [])
  ∧ fst (get_local_image Demo.env "abstract"
           (add_event (HttpSearch (Some "secret") "abstract" 80 1)
              (set_tape_pos 1 Demo.curated)))
    = Ret (Some ["wallpapers"; "abstract"; "c.PNG"])
  ∧ fst (fetch_from_pexels Demo.env "abstract" Demo.curated) = Ret None
  ∧ events (snd (fetch_from_pexels Demo.env "abstract" Demo.curated))
    = [HttpSearch (Some "secret") "abstract" 80 1]
  ∧ existsb is_fetch
      (events (snd (fetch_from_pexels Demo.env "abstract" Demo.curated)))
    = false
  ∧ change_background Demo.env "abstract" false Demo.curated
    = (Ret false, snd (fetch_from_pexels Demo.env "abstract" Demo.curated)).
Proof. repeat split; vm_compute; reflexivity. Qed.

Lemma download_image_write_failure_witness :
  writable Demo.read_only (save_path_of "mountains" "104") = false
  ∧ download_image Demo.env "https://img.example/104"
      (save_path_of "mountains" "104") Demo.read_only
    = (Ret None, add_event (HttpFetch "https://img.example/104") Demo.read_only).
Proof.
  assert (writable Demo.read_only (save_path_of "mountains" "104") = false)
    as Hw by (vm_compute; reflexivity).
  split; [exact Hw|].
  exact (proj1 (download_image_write_failure Demo.env _ _ _ Hw)).
Defined.

(** * Further properties of the methods *)

Section Further.
Context (E : Env).

(** ** The hash store *)

(** X1.  [set_wallpaper] never raises, not even when the system call
    does: it makes the one wallpaper call, on the absolute path, changes
    nothing else, and returns [True] exactly when the call returned a
    non-zero value. *)
Theorem set_wallpaper_never_raises p s :
  ∃ b, set_wallpaper E p s
       = (Ret b, add_event (SetDeskWallpaper (abspath E p)) s)
       ∧ (b = true ↔ SystemParametersInfoW E (abspath E p) = SpiNonZero).
Proof.
  rewrite set_wallpaper_cases.
  destruct (SystemParametersInfoW E (abspath E p)); eexists; split; done.
Qed.





Lemma mapM_hashable_strings (l : list string) :
  mapM hashable (JStr <$> l) = Some (KStr <$> l).
Proof.
  apply mapM_Some. induction l as [|x l IH]; simpl; by constructor.
Qed.

(** X4.  A readable hash file that holds a JSON array of strings gives
    exactly the set of those strings, whatever their order and however
    often each occurs. *)
Theorem load_used_hashes_array (l : list string) s :
  hash_file_path ∉ locked s →
  fs s !! hash_file_path = Some (File (JsonText (JArr (JStr <$> l)))) →
  load_used_hashes s = (Ret (list_to_set (KStr <$> l)), s)
  ∧ ∀ h, KStr h ∈ (list_to_set (KStr <$> l) : gset key) ↔ h ∈ l.
Proof.
  intros Hl Hfs. split.
  - unfold load_used_hashes, path_exists, open_read. run.
    rewrite Hfs. rewrite bool_decide_eq_true_2 by eauto.
    rewrite bool_decide_eq_false_2 by done. rewrite Hfs. simpl.
    by rewrite mapM_hashable_strings.
  - intros h. rewrite elem_of_list_to_set, list_elem_of_fmap. split.
    + intros (h' & Heq & Hin). by inversion Heq; subst.
    + intros Hin. eauto.
Qed.


(** ** Downloading one image *)

(** X6.  [download_image] never raises, whatever the server answers and
    whatever the file system does, and it makes exactly one call: the
    request for the URL. *)
Theorem download_image_one_request url p s :
  (∃ r, fst (download_image E url p s) = Ret r)
  ∧ events (snd (download_image E url p s)) = events s ++ [HttpFetch url].
Proof.
  split; [apply download_image_returns|apply download_image_events].
Qed.

Lemma download_image_none url p s :
  fst (download_image E url p s) = Ret None →
  snd (download_image E url p s) = add_event (HttpFetch url) s.
Proof.
  rewrite download_image_cases. simpl.
  destruct (fetch_url E url) as [|status data]; [done|].
  destruct (http_error status); [done|]. case_bool_decide; [done|].
  by destruct (writable s p).
Qed.


Lemma download_image_success url p p' s :
  fst (download_image E url p s) = Ret (Some p') →
  p ≠ hash_file_path →
  p' = p
  ∧ ∃ status data,
      fetch_url E url = Reply status data
      ∧ http_error status = false
      ∧ (KStr (get_image_hash E data) ∉ used_hashes s)
      ∧ used_hashes (snd (download_image E url p s))
        = {[KStr (get_image_hash E data)]} ∪ used_hashes s
      ∧ fs (snd (download_image E url p s)) !! p = Some (File (Raw data)).
Proof.
  rewrite download_image_cases. simpl.
  destruct (fetch_url E url) as [|status data]; [done|].
  destruct (http_error status) eqn:Hok; [done|]. case_bool_decide; [done|].
  destruct (writable s p) eqn:Hw; [|done]. simpl.
  intros Heq Hp. inversion Heq; subst p'. split; [done|].
  exists status, data. split; [done|]. split; [done|]. split; [done|].
  rewrite add_used_hash_cases, save_used_hashes_cases. simpl.
  rewrite writable_set_used_hashes.
  destruct (writable _ hash_file_path); simpl.
  - split; [done|]. rewrite lookup_insert_ne by done. apply lookup_insert_eq.
  - split; [done|]. apply lookup_insert_eq.
Qed.

(** X8.  When [download_image] returns a path, it is the path it was
    given; the reply had no error status, its bytes had a digest the set
    did not hold, the set now holds it and nothing else new, the file at
    the path holds exactly those bytes, and no file other than it and the
    hash file has changed. *)
Theorem download_image_some url p p' s :
  fst (download_image E url p s) = Ret (Some p') →
  p ≠ hash_file_path →
  p' = p
  ∧ ∃ status data,
      fetch_url E url = Reply status data
      ∧ http_error status = false
      ∧ (KStr (get_image_hash E data) ∉ used_hashes s)
      ∧ used_hashes (snd (download_image E url p s))
        = {[KStr (get_image_hash E data)]} ∪ used_hashes s
      ∧ fs (snd (download_image E url p s)) !! p = Some (File (Raw data))
      ∧ ∀ p'', p'' ≠ p → p'' ≠ hash_file_path →
               fs (snd (download_image E url p s)) !! p'' = fs s !! p''.
Proof.
  rewrite download_image_cases. simpl.
  destruct (fetch_url E url) as [|status data]; [done|].
  destruct (http_error status) eqn:Hok; [done|]. case_bool_decide; [done|].
  destruct (writable s p) eqn:Hw; [|done]. simpl.
  intros Heq Hp. inversion Heq; subst p'. split; [done|].
  exists status, data. split; [done|]. split; [done|]. split; [done|].
  rewrite add_used_hash_cases, save_used_hashes_cases. simpl.
  rewrite writable_set_used_hashes.
  destruct (writable _ hash_file_path); simpl.
  - split; [done|]. split.
    + rewrite lookup_insert_ne by done. apply lookup_insert_eq.
    + intros p'' Hne Hneh. by rewrite !lookup_insert_ne.
  - split; [done|]. split; [apply lookup_insert_eq|].
    intros p'' Hne Hneh. by rewrite lookup_insert_ne.
Qed.

(** ** The loop over the candidates *)

Lemma set_tape_pos_same s : set_tape_pos (tape_pos s) s = s.
Proof. by destruct s. Qed.

(** [random.shuffle] returns a rearrangement of the list, and takes one
    draw for each position but the first. *)
Lemma shuffle_cases {A} (x : list A) s :
  ∃ y, shuffle E x s
       = (Ret y, set_tape_pos (tape_pos s + (length x - 1)) s)
       ∧ y ≡ₚ x.
Proof.
  unfold shuffle. generalize (length x - 1) as i. intros i. revert x s.
  induction i as [|i IH]; intros x s; simpl.
  - exists x. by rewrite Nat.add_0_r, set_tape_pos_same.
  - unfold bind. rewrite randbelow_cases.
    destruct (IH (swap x (S i) (random_tape E (tape_pos s) mod S (S i)))
                (set_tape_pos (S (tape_pos s)) s)) as (y & Hy & Hp).
    exists y. rewrite Hy. simpl. split.
    + f_equal. unfold set_tape_pos. simpl. f_equal. lia.
    + by rewrite Hp, swap_Permutation.
Qed.

(** [fetch_from_pexels] once a reply with photos is in: the loop runs
    over a rearrangement of the photos, inside the two handlers. *)
Lemma fetch_from_pexels_photos q s status photos :
  let page := 1 + random_tape E (tape_pos s) mod 10 in
  let s1 := add_event (HttpSearch (api_key s) q 80 page)
              (set_tape_pos (S (tape_pos s)) s) in
  search_api E (api_key s) q 80 page = Reply status (Photos photos) →
  http_error status = false →
  photos ≠ [] →
  ∃ shuffled,
    shuffled ≡ₚ photos
    ∧ fetch_from_pexels E q s
      = try_except (try_photos E q shuffled)
          [([RequestException], ret None);
           ([KeyError; JSONDecodeError], ret None)]
          (set_tape_pos (tape_pos s1 + (length photos - 1)) s1).
Proof.
  intros page s1 Hsearch Hok Hne.
  destruct (shuffle_cases photos s1) as (y & Hy & Hp).
  exists y. split; [done|].
  rewrite fetch_from_pexels_request. fold page. fold s1. rewrite Hsearch.
  unfold try_except, raise_for_status. rewrite Hok.
  unfold bind at 1, ret. unfold bind at 1. simpl.
  destruct photos as [|photo photos]; [done|].
  unfold bind. by rewrite Hy.
Qed.

(** X9.  Candidates whose file is already there are passed over without
    a request and without any change: the loop behaves as if they were
    not in the list, and gives [None] when no other candidate is left. *)
Theorem try_photos_skips_present q present rest s :
  fs s !! path_join base_dir q = Some Dir →
  Forall (fun ph => ∃ id url, ph = Photo (Some id) (Some url)
                              ∧ is_Some (fs s !! save_path_of q id)) present →
  try_photos E q (present ++ rest) s = try_photos E q rest s
  ∧ try_photos E q present s = (Ret None, s).
Proof.
  intros Hdir Hall. induction Hall as [|ph present Hph _ [IH1 IH2]]; [done|].
  destruct Hph as (id & url & -> & [n Hn]). split.
  - rewrite <- app_comm_cons.
    rewrite (try_photos_step E q id url (present ++ rest) s s)
      by by apply mkdir_exist_ok_present.
    by rewrite Hn.
  - rewrite (try_photos_step E q id url present s s)
      by by apply mkdir_exist_ok_present.
    by rewrite Hn.
Qed.

(** X10.  A candidate that lacks its URL or its identifier ends the loop
    with [KeyError] before anything is done for it or for the candidates
    after it; [fetch_from_pexels] turns the error into [None]. *)
Theorem try_photos_missing_field q photo rest s :
  photo_original photo = None ∨ photo_id photo = None →
  try_photos E q (photo :: rest) s = (Raise KeyError, s)
  ∧ try_except (try_photos E q (photo :: rest))
      [([RequestException], ret None);
       ([KeyError; JSONDecodeError], ret None)] s
    = (Ret None, s).
Proof.
  intros Hmiss.
  assert (try_photos E q (photo :: rest) s = (Raise KeyError, s)) as Hr.
  { simpl. unfold bind at 1.
    destruct (photo_original photo) as [url|]; simpl; [|done].
    unfold bind at 1.
    destruct (photo_id photo) as [id|]; simpl; [|done].
    by destruct Hmiss. }
  split; [done|]. unfold try_except. by rewrite Hr.
Qed.

(** X11.  Whatever the credential, a search that fails (the request
    raises, the status is an error, or the body is not JSON) makes
    [fetch_from_pexels] return [None]: nothing is raised, nothing is
    downloaded, and no file or digest changes. *)
Theorem fetch_from_pexels_search_failure q s :
  let page := 1 + random_tape E (tape_pos s) mod 10 in
  request_fails (search_api E (api_key s) q 80 page) = true
  ∨ (∃ status, search_api E (api_key s) q 80 page = Reply status NotJson) →
  fetch_from_pexels E q s
  = (Ret None, add_event (HttpSearch (api_key s) q 80 page)
                 (set_tape_pos (S (tape_pos s)) s)).
Proof.
  intros page Hfail. rewrite fetch_from_pexels_request. fold page.
  unfold try_except, bind at 1.
  destruct (request_fails (search_api E (api_key s) q 80 page)) eqn:Hreq.
  - by rewrite raise_for_status_fails.
  - destruct Hfail as [?|[status Hbody]]; [done|].
    rewrite Hbody in *. simpl in Hreq. unfold raise_for_status.
    by rewrite Hreq.
Qed.

(** One turn of the loop, in full. *)
Lemma try_photos_cons q ph rest s :
  try_photos E q (ph :: rest) s =
  match photo_original ph, photo_id ph with
  | Some url, Some id =>
      match mkdir_exist_ok (path_join base_dir q) s with
      | (Ret _, s1) =>
          match fs s1 !! save_path_of q id with
          | Some _ => try_photos E q rest s1
          | None =>
              match download_image E url (save_path_of q id) s1 with
              | (Ret (Some p), s2) => (Ret (Some p), s2)
              | (Ret None, s2) => try_photos E q rest s2
              | (Raise e, s2) => (Raise e, s2)
              end
          end
      | (Raise e, s1) => (Raise e, s1)
      end
  | _, _ => (Raise KeyError, s)
  end.
Proof.
  destruct ph as [[id|] [url|]]; try done.
  cbn [photo_original photo_id].
  destruct (mkdir_exist_ok (path_join base_dir q) s) as [[[]|e] s1] eqn:Hmk.
  - by rewrite (try_photos_step E q id url rest s s1 Hmk).
  - simpl. unfold getitem, bind at 1, ret. unfold bind at 1. unfold bind at 1.
    by rewrite Hmk.
Qed.

(** [mkdir(exist_ok=True)] changes nothing, or adds the directory where
    nothing was, or raises. *)
Lemma mkdir_exist_ok_cases p s :
  mkdir_exist_ok p s = (Ret (), s)
  ∨ (fs s !! p = None
     ∧ mkdir_exist_ok p s = (Ret (), set_fs (<[p := Dir]> (fs s)) s))
  ∨ mkdir_exist_ok p s = (Raise OSError, s).
Proof.
  unfold mkdir_exist_ok. run.
  destruct (fs s !! p) as [[c|]|]; [by right; right|by left|].
  destruct (is_dir (fs s) (parent p)); [right; left|right; right]; done.
Qed.

Lemma mkdir_exist_ok_state p s :
  used_hashes (snd (mkdir_exist_ok p s)) = used_hashes s
  ∧ events (snd (mkdir_exist_ok p s)) = events s
  ∧ ∀ k, fs (snd (mkdir_exist_ok p s)) !! k = None → fs s !! k = None.
Proof.
  destruct (mkdir_exist_ok_cases p s) as [->|[[Hn ->]| ->]]; try done.
  simpl. repeat split; try done.
  intros k Hk. apply lookup_insert_None in Hk. tauto.
Qed.

(** When the loop returns a path, it is the path of one of the
    candidates, nothing was there before, the file now holds the bytes
    downloaded from the candidate's URL, and their digest is new. *)
Lemma try_photos_some q photos s p :
  fst (try_photos E q photos s) = Ret (Some p) →
  ∃ ph id url status data,
    ph ∈ photos ∧ photo_id ph = Some id ∧ photo_original ph = Some url
    ∧ p = save_path_of q id
    ∧ fetch_url E url = Reply status data ∧ http_error status = false
    ∧ (KStr (get_image_hash E data) ∉ used_hashes s)
    ∧ used_hashes (snd (try_photos E q photos s))
      = {[KStr (get_image_hash E data)]} ∪ used_hashes s
    ∧ fs s !! p = None
    ∧ fs (snd (try_photos E q photos s)) !! p = Some (File (Raw data)).
Proof.
  revert s. induction photos as [|ph rest IH]; intros s; [done|].
  rewrite try_photos_cons.
  destruct (photo_original ph) as [url|] eqn:Hurl; [|by destruct (photo_id ph)].
  destruct (photo_id ph) as [id|] eqn:Hid; [|done].
  destruct (mkdir_exist_ok_state (path_join base_dir q) s) as (Hh & _ & Hfs).
  destruct (mkdir_exist_ok (path_join base_dir q) s) as [[[]|e] s1];
    simpl in *; [|done].
  destruct (fs s1 !! save_path_of q id) as [n|] eqn:Hsp.
  - intros Hr. destruct (IH s1 Hr)
      as (ph' & id' & url' & st & data & Hin & ? & ? & ? & ? & ? & ? & ? & ? & ?).
    exists ph', id', url', st, data. rewrite <- Hh.
    repeat split; try done; [by right|by apply Hfs].
  - pose proof (download_image_success url (save_path_of q id)) as Hsome.
    pose proof (download_image_none url (save_path_of q id) s1) as Hnone.
    destruct (download_image E url (save_path_of q id) s1)
      as [[[p'|]|e] s2] eqn:Hd; simpl in *; [| |done].
    + intros Hr. inversion Hr; subst p'.
      specialize (Hsome p s1). rewrite Hd in Hsome. simpl in Hsome.
      destruct (Hsome eq_refl (save_path_not_hash_file q id))
        as (-> & st & data & ? & ? & ? & ? & ?).
      exists ph, id, url, st, data. rewrite <- Hh.
      repeat split; try done; [by left|by apply Hfs].
    + specialize (Hnone eq_refl). subst s2.
      intros Hr. destruct (IH _ Hr)
        as (ph' & id' & url' & st & data & Hin & ? & ? & ? & ? & ? & ? & ? & ? & ?).
      exists ph', id', url', st, data. rewrite <- Hh.
      repeat split; try done; [by right|by apply Hfs].
Qed.

Lemma at_most_one_new_refl s s' :
  used_hashes s' = used_hashes s → at_most_one_new s s'.
Proof. by left. Qed.

Lemma at_most_one_new_from s0 s s' :
  used_hashes s = used_hashes s0 → at_most_one_new s s' → at_most_one_new s0 s'.
Proof. unfold at_most_one_new. by intros ->. Qed.

Lemma try_photos_at_most_one_new q photos s :
  at_most_one_new s (snd (try_photos E q photos s)).
Proof.
  revert s. induction photos as [|ph rest IH]; intros s; [by left|].
  rewrite try_photos_cons.
  destruct (photo_original ph) as [url|];
    [|destruct (photo_id ph); by left].
  destruct (photo_id ph) as [id|]; [|by left].
  destruct (mkdir_exist_ok_state (path_join base_dir q) s) as (Hh & _ & _).
  destruct (mkdir_exist_ok (path_join base_dir q) s) as [[[]|e] s1];
    simpl in *; [|by left].
  apply (at_most_one_new_from s s1); [done|].
  destruct (fs s1 !! save_path_of q id) as [n|]; [apply IH|].
  pose proof (download_image_success url (save_path_of q id)) as Hsome.
  pose proof (download_image_none url (save_path_of q id) s1) as Hnone.
  pose proof (download_image_returns E url (save_path_of q id) s1) as [r Hr].
  destruct (download_image E url (save_path_of q id) s1)
    as [[[p'|]|e] s2] eqn:Hd; simpl in *; [| |done].
  - specialize (Hsome p' s1). rewrite Hd in Hsome. simpl in Hsome.
    destruct (Hsome eq_refl (save_path_not_hash_file q id))
      as (_ & st & data & _ & _ & Hnew & Hset & _).
    right. by exists (KStr (get_image_hash E data)).
  - specialize (Hnone eq_refl). subst s2.
    apply (at_most_one_new_from s1 (add_event (HttpFetch url) s1)); [done|].
    apply IH.
Qed.

(** What the loop calls: only requests for URLs of the candidates. *)
Lemma try_photos_events q photos s :
  ∃ l, events (snd (try_photos E q photos s)) = events s ++ l
       ∧ Forall (fun e => ∃ ph url, ph ∈ photos
                                    ∧ photo_original ph = Some url
                                    ∧ e = HttpFetch url) l.
Proof.
  revert s. induction photos as [|ph rest IH]; intros s.
  { exists []. by rewrite app_nil_r. }
  assert (∀ l : list event,
    Forall (fun e => ∃ ph' url, ph' ∈ rest ∧ photo_original ph' = Some url
                                ∧ e = HttpFetch url) l →
    Forall (fun e => ∃ ph' url, ph' ∈ ph :: rest
                                ∧ photo_original ph' = Some url
                                ∧ e = HttpFetch url) l) as Hweak.
  { intros l Hl. eapply Forall_impl; [exact Hl|].
    intros e (ph' & url & Hin & ? & ?).
    exists ph', url. split; [by right|done]. }
  rewrite try_photos_cons.
  destruct (photo_original ph) as [url|] eqn:Hurl;
    [|exists []; destruct (photo_id ph); by rewrite app_nil_r].
  destruct (photo_id ph) as [id|]; [|exists []; by rewrite app_nil_r].
  destruct (mkdir_exist_ok_state (path_join base_dir q) s) as (_ & Hev & _).
  destruct (mkdir_exist_ok (path_join base_dir q) s) as [[[]|e] s1];
    simpl in *; [|exists []; by rewrite app_nil_r].
  rewrite <- Hev.
  destruct (fs s1 !! save_path_of q id) as [n|].
  { destruct (IH s1) as (l & Hl & Hall). exists l. split; [done|by apply Hweak]. }
  pose proof (download_image_events E url (save_path_of q id) s1) as Hde.
  assert (Forall (fun e => ∃ ph' url', ph' ∈ ph :: rest
                                      ∧ photo_original ph' = Some url'
                                      ∧ e = HttpFetch url') [HttpFetch url])
    as Hone.
  { constructor; [|constructor]. exists ph, url. split; [by left|done]. }
  destruct (download_image E url (save_path_of q id) s1)
    as [[[p'|]|e] s2] eqn:Hd; simpl in *.
  - exists [HttpFetch url]. by split.
  - destruct (IH s2) as (l & Hl & Hall).
    exists (HttpFetch url :: l). rewrite Hl, Hde. split.
    + by rewrite <- app_assoc.
    + inversion Hone; subst. constructor; [done|by apply Hweak].
  - exists [HttpFetch url]. by split.
Qed.

(** The two handlers of [fetch_from_pexels] return [None]: they change
    no state, and a path comes out only if the body returned it. *)
Lemma handlers_return_none {A} (m : M (option A)) s :
  let r := try_except m [([RequestException], ret None);
                         ([KeyError; JSONDecodeError], ret None)] s in
  snd r = snd (m s)
  ∧ ∀ p, fst r = Ret (Some p) → fst (m s) = Ret (Some p).
Proof.
  unfold try_except. destruct (m s) as [[a|e] s']; simpl; [done|].
  destruct e; simpl; done.
Qed.

(** Every path through [fetch_from_pexels], by the reply to the search. *)
Lemma fetch_from_pexels_cases q s :
  let page := 1 + random_tape E (tape_pos s) mod 10 in
  let s1 := add_event (HttpSearch (api_key s) q 80 page)
              (set_tape_pos (S (tape_pos s)) s) in
  fetch_from_pexels E q s = (Ret None, s1)
  ∨ (∃ status,
       search_api E (api_key s) q 80 page = Reply status (Photos [])
       ∧ fetch_from_pexels E q s
         = match get_local_image E q s1 with
           | (Ret _, s2) => (Ret None, s2)
           | (Raise e, s2) => (Raise e, s2)
           end)
  ∨ (∃ status photos shuffled,
       search_api E (api_key s) q 80 page = Reply status (Photos photos)
       ∧ shuffled ≡ₚ photos
       ∧ fetch_from_pexels E q s
         = try_except (try_photos E q shuffled)
             [([RequestException], ret None);
              ([KeyError; JSONDecodeError], ret None)]
             (set_tape_pos (tape_pos s1 + (length photos - 1)) s1)).
Proof.
  intros page s1.
  destruct (search_api E (api_key s) q 80 page) as [|status body] eqn:Hreply.
  { left. rewrite fetch_from_pexels_request. fold page. rewrite Hreply.
    unfold try_except, bind at 1. by rewrite raise_for_status_fails. }
  destruct (http_error status) eqn:Hok.
  { left. rewrite fetch_from_pexels_request. fold page. rewrite Hreply.
    unfold try_except, bind at 1. by rewrite raise_for_status_fails. }
  destruct body as [|photos].
  { left. rewrite fetch_from_pexels_request. fold page. rewrite Hreply.
    unfold try_except, bind at 1, raise_for_status. by rewrite Hok. }
  destruct photos as [|photo photos].
  - right. left. exists status. split; [done|].
    by apply (fetch_from_pexels_zero_results E q s status).
  - right. right.
    destruct (fetch_from_pexels_photos q s status (photo :: photos))
      as (shuffled & Hp & Heq); try done.
    by exists status, (photo :: photos), shuffled.
Qed.

(** ** The remote variant as a whole *)

Lemma at_most_one_new_subseteq s s' :
  at_most_one_new s s' → used_hashes s ⊆ used_hashes s'.
Proof.
  intros [->|(h & _ & ->)]; [done|]. apply union_subseteq_r.
Qed.

Lemma fetch_from_pexels_at_most_one_new q s :
  at_most_one_new s (snd (fetch_from_pexels E q s)).
Proof.
  destruct (fetch_from_pexels_cases q s)
    as [->|[(status & _ & ->)|(status & photos & shuffled & _ & _ & ->)]].
  - by left.
  - pose proof (get_local_image_same_store E q
      (add_event (HttpSearch (api_key s) q 80
                    (1 + random_tape E (tape_pos s) mod 10))
         (set_tape_pos (S (tape_pos s)) s))) as [Hh _].
    left. by destruct (get_local_image E q _) as [[r|e] s2].
  - destruct (handlers_return_none (try_photos E q shuffled)
      (set_tape_pos
         (tape_pos (add_event (HttpSearch (api_key s) q 80
                                 (1 + random_tape E (tape_pos s) mod 10))
                      (set_tape_pos (S (tape_pos s)) s))
          + (length photos - 1))
         (add_event (HttpSearch (api_key s) q 80
                       (1 + random_tape E (tape_pos s) mod 10))
            (set_tape_pos (S (tape_pos s)) s)))) as [-> _].
    eapply at_most_one_new_from; [|apply try_photos_at_most_one_new]. done.
Qed.

(** X14.  One call of [change_background], in either mode, never removes
    a digest from the set and adds at most one, which the set did not
    hold before. *)
Theorem change_background_at_most_one_new q local_only s :
  at_most_one_new s (snd (change_background E q local_only s))
  ∧ used_hashes s ⊆ used_hashes (snd (change_background E q local_only s)).
Proof.
  assert (at_most_one_new s (snd (change_background E q local_only s))) as H.
  { unfold change_background, bind.
    assert (at_most_one_new s
              (snd ((if local_only then get_local_image E q
                     else fetch_from_pexels E q) s))) as Ha.
    { destruct local_only; [|apply fetch_from_pexels_at_most_one_new].
      left. apply (get_local_image_same_store E q s). }
    destruct ((if local_only then get_local_image E q
               else fetch_from_pexels E q) s) as [[[p|]|e] s1];
      simpl in *; try done.
    by rewrite set_wallpaper_cases. }
  split; [done|by apply at_most_one_new_subseteq].
Qed.

Lemma fetch_from_pexels_saved_file q s p :
  fst (fetch_from_pexels E q s) = Ret (Some p) →
  ∃ data, fs (snd (fetch_from_pexels E q s)) !! p = Some (File (Raw data)).
Proof.
  destruct (fetch_from_pexels_cases q s)
    as [->|[(status & _ & ->)|(status & photos & shuffled & Hreply & Hp & ->)]].
  - done.
  - by destruct (get_local_image E q _) as [[r|e] s2].
  - set (s2 := set_tape_pos _ _).
    destruct (handlers_return_none (try_photos E q shuffled) s2) as [-> Hsome].
    intros Hr. apply Hsome in Hr.
    destruct (try_photos_some q shuffled s2 p Hr)
      as (ph & id & url & st & data & _ & _ & _ & _ & _ & _ & _ & _ & _ & ?).
    by exists data.
Qed.

(** X15.  When [fetch_from_pexels] returns a path, the path is that of a
    photo of the search reply; no file was there before the call; the
    file now holds the bytes served at that photo's URL; and the digest
    of those bytes was not in the set before the call and is in it now:
    an image the remote variant returns has never been used before. *)
Theorem fetch_from_pexels_returns_new_image q s p :
  fst (fetch_from_pexels E q s) = Ret (Some p) →
  ∃ status photos ph id url status' data,
    search_api E (api_key s) q 80 (1 + random_tape E (tape_pos s) mod 10)
    = Reply status (Photos photos)
    ∧ ph ∈ photos ∧ photo_id ph = Some id ∧ photo_original ph = Some url
    ∧ p = save_path_of q id
    ∧ fetch_url E url = Reply status' data ∧ http_error status' = false
    ∧ (KStr (get_image_hash E data) ∉ used_hashes s)
    ∧ used_hashes (snd (fetch_from_pexels E q s))
      = {[KStr (get_image_hash E data)]} ∪ used_hashes s
    ∧ fs s !! p = None
    ∧ fs (snd (fetch_from_pexels E q s)) !! p = Some (File (Raw data)).
Proof.
  destruct (fetch_from_pexels_cases q s)
    as [->|[(status & _ & ->)|(status & photos & shuffled & Hreply & Hp & ->)]].
  - done.
  - by destruct (get_local_image E q _) as [[r|e] s2].
  - set (s2 := set_tape_pos _ _).
    destruct (handlers_return_none (try_photos E q shuffled) s2) as [-> Hsome].
    intros Hr. apply Hsome in Hr.
    destruct (try_photos_some q shuffled s2 p Hr)
      as (ph & id & url & st & data & Hin & ? & ? & ? & ? & ? & ? & ? & ? & ?).
    exists status, photos, ph, id, url, st, data.
    repeat split; try done. by rewrite <- Hp.
Qed.

(** X16.  The calls [fetch_from_pexels] makes are one search request,
    first, for the topic with 80 results per page and a page from 1 to
    10, and after it only requests for URLs that the reply listed; it
    never makes the wallpaper call. *)
Theorem fetch_from_pexels_calls q s :
  let page := 1 + random_tape E (tape_pos s) mod 10 in
  1 ≤ page ≤ 10
  ∧ ∃ l, events (snd (fetch_from_pexels E q s))
         = events s ++ HttpSearch (api_key s) q 80 page :: l
         ∧ Forall (fun e => ∃ status photos ph url,
                      search_api E (api_key s) q 80 page
                      = Reply status (Photos photos)
                      ∧ ph ∈ photos ∧ photo_original ph = Some url
                      ∧ e = HttpFetch url) l.
Proof.
  intros page. split.
  { unfold page.
    pose proof (Nat.mod_upper_bound (random_tape E (tape_pos s)) 10). lia. }
  destruct (fetch_from_pexels_cases q s)
    as [->|[(status & _ & ->)|(status & photos & shuffled & Hreply & Hp & ->)]].
  - exists []. split; [done|constructor].
  - exists []. split; [|constructor].
    pose proof (get_local_image_events E q
      (add_event (HttpSearch (api_key s) q 80 page)
         (set_tape_pos (S (tape_pos s)) s))) as Hev.
    by destruct (get_local_image E q _) as [[r|e] s2].
  - set (s2 := set_tape_pos _ _).
    destruct (handlers_return_none (try_photos E q shuffled) s2) as [-> _].
    destruct (try_photos_events q shuffled s2) as (l & -> & Hall).
    exists l. split; [simpl; by rewrite <- app_assoc|].
    eapply Forall_impl; [exact Hall|].
    intros e (ph & url & Hin & ? & ?).
    exists status, photos, ph, url. repeat split; try done. by rewrite <- Hp.
Qed.

(** ** The exceptions that can leave a method *)

Ltac in_list := by repeat constructor.

Ltac sub_list :=
  let x := fresh "x" in
  let Hx := fresh "Hx" in
  intros x Hx;
  repeat (apply elem_of_cons in Hx as [->|Hx]; [in_list|]);
  by apply elem_of_nil in Hx.

Lemma raises_only_ret {A} allowed (a : A) : raises_only allowed (ret a).
Proof. by intros s. Qed.

Lemma raises_only_raise {A} allowed e :
  e ∈ allowed → raises_only allowed (@raise A e).
Proof. by intros He s. Qed.

Lemma raises_only_weaken {A} inner allowed (m : M A) :
  inner ⊆ allowed → raises_only inner m → raises_only allowed m.
Proof.
  intros Hsub Hm s. specialize (Hm s).
  destruct (fst (m s)); [done|]. by apply Hsub.
Qed.

Lemma raises_only_bind {A B} allowed (m : M A) (k : A → M B) :
  raises_only allowed m → (∀ a, raises_only allowed (k a)) →
  raises_only allowed (bind m k).
Proof.
  intros Hm Hk s. unfold bind. specialize (Hm s).
  destruct (m s) as [[a|e] s']; simpl in *; [apply Hk|done].
Qed.

(** What leaves [try: m except ...] is what leaves a handler that ran,
    or an exception of [m] that no clause matched. *)
Lemma raises_only_try_except {A} inner allowed (m : M A) clauses :
  raises_only inner m →
  (∀ e, e ∈ inner →
        match dispatch e clauses with
        | Some h => raises_only allowed h
        | None => e ∈ allowed
        end) →
  raises_only allowed (try_except m clauses).
Proof.
  intros Hm Hc s. unfold try_except. specialize (Hm s).
  destruct (m s) as [[a|e] s']; simpl in *; [done|].
  specialize (Hc e Hm). destruct (dispatch e clauses) as [h|]; [apply Hc|done].
Qed.

Lemma raises_only_nothing {A} allowed (m : M A) :
  (∀ s, ∃ r, fst (m s) = Ret r) → raises_only allowed m.
Proof. intros Hm s. by destruct (Hm s) as [r ->]. Qed.

Lemma getitem_raises field : raises_only [KeyError] (getitem field).
Proof. destruct field as [v|]; intros st; simpl; in_list. Qed.

Lemma mkdir_exist_ok_raises p : raises_only [OSError] (mkdir_exist_ok p).
Proof.
  intros s. unfold mkdir_exist_ok. run.
  destruct (fs s !! p) as [[c|]|]; simpl; try done; try in_list.
  destruct (is_dir (fs s) (parent p)); simpl; [done|in_list].
Qed.

Lemma try_photos_raises q photos :
  raises_only [KeyError; OSError] (try_photos E q photos).
Proof.
  induction photos as [|photo rest IH]; simpl; [by intros s|].
  apply raises_only_bind;
    [eapply raises_only_weaken; [|apply getitem_raises]; sub_list
    |intros image_url].
  apply raises_only_bind;
    [eapply raises_only_weaken; [|apply getitem_raises]; sub_list
    |intros id].
  apply raises_only_bind;
    [eapply raises_only_weaken; [|apply mkdir_exist_ok_raises]; sub_list
    |intros _].
  apply raises_only_bind; [by intros s|intros e].
  destruct e; [apply IH|].
  apply raises_only_bind.
  - apply raises_only_nothing. intros s. apply download_image_returns.
  - intros [p|]; [by intros s|apply IH].
Qed.

Lemma get_local_image_raises q : raises_only [OSError] (get_local_image E q).
Proof.
  intros s. rewrite get_local_image_cases. simpl.
  destruct (fs s !! path_join base_dir q) as [[c|]|]; simpl;
    try done; [in_list|].
  by destruct (_ !! _).
Qed.

Lemma fetch_from_pexels_raises q : raises_only [OSError] (fetch_from_pexels E q).
Proof.
  intros s. rewrite fetch_from_pexels_request.
  apply (raises_only_try_except
           [RequestException; JSONDecodeError; KeyError; OSError]).
  - apply raises_only_bind.
    { intros st. destruct (search_api _ _ _ _ _) as [|status body]; simpl;
        [in_list|].
      unfold raise_for_status. destruct (http_error status); simpl;
        [in_list|done]. }
    intros body. apply raises_only_bind.
    { intros st. destruct body; simpl; [in_list|done]. }
    intros [|photo photos].
    + apply raises_only_bind; [|by intros _ st].
      eapply raises_only_weaken; [|apply get_local_image_raises]. sub_list.
    + apply raises_only_bind.
      * apply raises_only_nothing. intros st.
        destruct (shuffle_cases (photo :: photos) st) as (y & -> & _).
        by eexists.
      * intros shuffled. eapply raises_only_weaken;
          [|apply try_photos_raises]. sub_list.
  - intros e He. 
    repeat (apply elem_of_cons in He as [->|He]); simpl;
      try (by intros st); try in_list.
    by apply elem_of_nil in He.
Qed.

Lemma change_background_raises q local_only :
  raises_only [OSError] (change_background E q local_only).
Proof.
  unfold change_background. apply raises_only_bind.
  - destruct local_only;
      [apply get_local_image_raises|apply fetch_from_pexels_raises].
  - intros [p|]; [|by intros s].
    intros s. by rewrite set_wallpaper_cases.
Qed.

(** X12.  The only exception that can leave the acquisition of an image,
    in either mode, is [OSError] (from listing or making the topic's
    directory): request errors, error statuses, replies that are not
    JSON and photos without the expected fields are all turned into
    [None], and [set_wallpaper] raises nothing. *)
Theorem change_background_raises_only_OSError q :
  raises_only [OSError] (get_local_image E q)
  ∧ raises_only [OSError] (fetch_from_pexels E q)
  ∧ ∀ local_only, raises_only [OSError] (change_background E q local_only).
Proof.
  split; [apply get_local_image_raises|].
  split; [apply fetch_from_pexels_raises|].
  apply change_background_raises.
Qed.



(** ** Setting the wallpaper, the constructor and [main] *)

(** [change_background] returns [True] only through a wallpaper call
    that succeeded on the path the variant returned. *)
Lemma change_background_true q local_only s :
  fst (change_background E q local_only s) = Ret true →
  ∃ p s1,
    (if local_only then get_local_image E q else fetch_from_pexels E q) s
    = (Ret (Some p), s1)
    ∧ snd (change_background E q local_only s)
      = add_event (SetDeskWallpaper (abspath E p)) s1
    ∧ SystemParametersInfoW E (abspath E p) = SpiNonZero.
Proof.
  unfold change_background, bind.
  destruct ((if local_only then get_local_image E q
             else fetch_from_pexels E q) s) as [[[p|]|e] s1]; try done.
  rewrite set_wallpaper_cases. simpl. intros Hr.
  exists p, s1. split; [done|]. split; [done|].
  by destruct (SystemParametersInfoW E (abspath E p)).
Qed.

(** Every path through [main]. *)
Lemma main_cases argv s :
  main E argv s =
  if (length argv <? 1)%nat then (Raise (SystemExit 1), s)
  else
    match random_choice E term_list s with
    | (Ret query_term, s1) =>
        match init E None s1 with
        | (Ret _, s2) =>
            match change_background E query_term (local_only_of argv) s2 with
            | (Ret true, s3) => (Ret (), s3)
            | (Ret false, s3) => (Raise (SystemExit 1), s3)
            | (Raise e, s3) => (Raise e, s3)
            end
        | (Raise e, s2) => (Raise e, s2)
        end
    | (Raise e, s1) => (Raise e, s1)
    end.
Proof.
  unfold main. destruct (length argv <? 1)%nat; [done|].
  unfold bind.
  destruct (random_choice E term_list s) as [[query_term|e] s1]; [|done].
  destruct (init E None s1) as [[[]|e] s2]; [|done].
  by destruct (change_background E query_term (local_only_of argv) s2)
    as [[[|]|e] s3].
Qed.

(** X17.  [main] ends normally (exit status 0) only if the last thing it
    did was a wallpaper call that returned a non-zero value; in every
    other case it raises. *)
Theorem main_exit_zero argv s :
  fst (main E argv s) = Ret () →
  ∃ abs_path,
    last (events (snd (main E argv s))) = Some (SetDeskWallpaper abs_path)
    ∧ SystemParametersInfoW E abs_path = SpiNonZero.
Proof.
  rewrite main_cases. destruct (length argv <? 1)%nat; [done|].
  destruct (random_choice E term_list s) as [[query_term|e] s1]; [|done].
  destruct (init E None s1) as [[[]|e] s2]; [|done].
  pose proof (change_background_true query_term (local_only_of argv) s2) as Ht.
  destruct (change_background E query_term (local_only_of argv) s2)
    as [[[|]|e] s3]; simpl in *; try done.
  intros _. destruct (Ht eq_refl) as (p & s' & _ & -> & Hspi).
  exists (abspath E p). split; [|done]. simpl. apply last_snoc.
Qed.

Lemma load_used_hashes_fst_ext s1 s2 :
  fs s1 = fs s2 → locked s1 = locked s2 →
  fst (load_used_hashes s1) = fst (load_used_hashes s2).
Proof.
  intros Hfs Hl.
  unfold load_used_hashes, path_exists, open_read, json_load, py_set.
  unfold try_except, bind, get, ret, raise. rewrite Hfs.
  case_bool_decide; [|done]. cbv beta. rewrite Hfs, Hl.
  case_bool_decide; [done|].
  destruct (fs s2 !! hash_file_path) as [[[data|v|data]|]|]; try done. simpl.
  destruct v; simpl; try done.
  by destruct (mapM hashable items).
Qed.

Lemma init_cases c s :
  init E c s =
  match load_used_hashes (set_api_key (py_or c (DEFAULT_API_KEY E)) s) with
  | (Ret h, s1) => mkdir_exist_ok base_dir (set_used_hashes h s1)
  | (Raise e, s1) => (Raise e, s1)
  end.
Proof.
  unfold init, bind, modify. simpl.
  by destruct (load_used_hashes _) as [[h|e] s1].
Qed.

(** When [mkdir(exist_ok=True)] returns, the directory is there and
    nothing else has changed. *)
Lemma mkdir_exist_ok_returns p s s' :
  mkdir_exist_ok p s = (Ret (), s') →
  fs s' !! p = Some Dir
  ∧ (∀ k, k ≠ p → fs s' !! k = fs s !! k)
  ∧ api_key s' = api_key s ∧ used_hashes s' = used_hashes s
  ∧ events s' = events s.
Proof.
  unfold mkdir_exist_ok. run.
  destruct (fs s !! p) as [[c|]|] eqn:Hp; try done.
  - intros Heq. by inversion Heq; subst s'.
  - destruct (is_dir (fs s) (parent p)); [|done].
    intros Heq. inversion Heq; subst s'. simpl.
    repeat split; try done; [apply lookup_insert_eq|].
    intros k Hk. by rewrite lookup_insert_ne.
Qed.

(** X18.  When the constructor returns, the object holds the key it was
    given, or the one of the environment if it was given none or an
    empty one; its set is what [load_used_hashes] read from the hash
    file; the wallpapers directory exists; and no other path of the file
    tree has changed and no call has been made. *)
Theorem init_returns c s :
  fst (init E c s) = Ret () →
  api_key (snd (init E c s)) = py_or c (getenv_pexels_api_key E)
  ∧ fst (load_used_hashes s) = Ret (used_hashes (snd (init E c s)))
  ∧ fs (snd (init E c s)) !! base_dir = Some Dir
  ∧ (∀ k, k ≠ base_dir → fs (snd (init E c s)) !! k = fs s !! k)
  ∧ events (snd (init E c s)) = events s.
Proof.
  rewrite init_cases.
  set (s0 := set_api_key (py_or c (DEFAULT_API_KEY E)) s).
  pose proof (load_used_hashes_state s0) as Hst.
  pose proof (load_used_hashes_fst_ext s0 s eq_refl eq_refl) as Hfst.
  destruct (load_used_hashes s0) as [[h|e] s0']; simpl in *; [|done].
  subst s0'. rewrite <- Hfst.
  pose proof (mkdir_exist_ok_returns base_dir (set_used_hashes h s0)) as Hm.
  destruct (mkdir_exist_ok base_dir (set_used_hashes h s0)) as [[[]|e] s1];
    simpl; [|done].
  intros _. destruct (Hm s1 eq_refl) as (Hd & Hk & Ha & Hh & He).
  rewrite Ha, Hh, He. done.
Qed.

(** X19.  When a regular file bears the name of the topic's directory,
    the local variant does not report failure: listing the directory
    raises [OSError], which nothing catches, so that [change_background]
    in local-only mode raises it too, having called and changed nothing. *)
Theorem local_only_raises_on_file q c s :
  fs s !! path_join base_dir q = Some (File c) →
  get_local_image E q s = (Raise OSError, s)
  ∧ change_background E q true s = (Raise OSError, s).
Proof.
  intros Hfs.
  assert (get_local_image E q s = (Raise OSError, s)) as Hg.
  { rewrite get_local_image_cases. simpl. by rewrite Hfs. }
  split; [done|]. unfold change_background, bind. by rewrite Hg.
Qed.

(** X20.  The same in remote mode: when the search returns photos, all
    with their fields, and a regular file bears the name of the topic's
    directory, making the directory raises [OSError], which neither
    handler of [fetch_from_pexels] catches; nothing is downloaded. *)
Theorem fetch_from_pexels_raises_on_file q c s status photos :
  let page := 1 + random_tape E (tape_pos s) mod 10 in
  search_api E (api_key s) q 80 page = Reply status (Photos photos) →
  http_error status = false →
  photos ≠ [] →
  Forall (fun ph => is_Some (photo_original ph) ∧ is_Some (photo_id ph)) photos →
  fs s !! path_join base_dir q = Some (File c) →
  fst (fetch_from_pexels E q s) = Raise OSError
  ∧ events (snd (fetch_from_pexels E q s))
    = events s ++ [HttpSearch (api_key s) q 80 page]
  ∧ same_store s (snd (fetch_from_pexels E q s)).
Proof.
  intros page Hreply Hok Hne Hall Hfs.
  destruct (fetch_from_pexels_photos q s status photos Hreply Hok Hne)
    as (shuffled & Hp & ->).
  set (s2 := set_tape_pos _ _).
  assert (try_photos E q shuffled s2 = (Raise OSError, s2)) as Hr.
  { rewrite <- Hp in Hall.
    destruct shuffled as [|ph rest].
    { apply Permutation_nil_l in Hp. by destruct photos. }
    apply Forall_cons in Hall as [[[url Hurl] [id Hid]] _].
    rewrite try_photos_cons, Hurl, Hid.
    assert (mkdir_exist_ok (path_join base_dir q) s2 = (Raise OSError, s2))
      as ->; [|done].
    unfold mkdir_exist_ok. run. by rewrite Hfs. }
  unfold try_except. rewrite Hr. simpl. done.
Qed.

(** X21.  What either variant returns is a regular file of the tree: the
    path [change_background] hands to the wallpaper call always exists. *)
Theorem acquired_image_is_a_file q (local_only : bool) s p :
  fst ((if local_only then get_local_image E q
        else fetch_from_pexels E q) s) = Ret (Some p) →
  is_file (fs (snd ((if local_only then get_local_image E q
                     else fetch_from_pexels E q) s))) p = true.
Proof.
  destruct local_only.
  - rewrite get_local_image_cases. simpl.
    destruct (fs s !! path_join base_dir q) as [[c|]|]; try done.
    destruct (_ !! _) as [f|] eqn:Hf; [|done]. simpl.
    intros Heq. inversion Heq; subst f.
    apply list_elem_of_lookup_2 in Hf.
    apply elem_of_image_files in Hf as (name & c & _ & Hc & _).
    apply is_file_iff. eauto.
  - intros Hr.
    destruct (fetch_from_pexels_saved_file q s p Hr) as (data & Hd).
    apply is_file_iff. eauto.
Qed.

(** X22.  The local variant does not consult the set of digests: what it
    returns is the same whatever the set holds, so that an image used
    before can be returned again. *)
Theorem get_local_image_ignores_hashes q h s :
  fst (get_local_image E q (set_used_hashes h s)) = fst (get_local_image E q s)
  ∧ used_hashes (snd (get_local_image E q (set_used_hashes h s))) = h.
Proof.
  rewrite !get_local_image_cases. simpl.
  destruct (fs s !! path_join base_dir q) as [[c|]|]; try done.
  by destruct (_ !! _).
Qed.

Lemma download_image_gives_nothing url p s :
  request_fails (fetch_url E url) = true
  ∨ (∃ status data, fetch_url E url = Reply status data
                    ∧ KStr (get_image_hash E data) ∈ used_hashes s) →
  download_image E url p s = (Ret None, add_event (HttpFetch url) s).
Proof.
  intros Hcond. rewrite download_image_cases. simpl.
  destruct (fetch_url E url) as [|status data]; [done|].
  destruct (http_error status) eqn:Hok; [done|].
  destruct Hcond as [Hf|(st & d & Heq & Hin)]; [simpl in Hf; congruence|].
  inversion Heq; subst. by rewrite bool_decide_eq_true_2.
Qed.

(** X24.  Exhaustion.  When, for every candidate, the request fails or
    the bytes served have a digest the set already holds, the loop
    requests each candidate once, in order, returns [None], and leaves
    the digests and every file as they were. *)
Theorem try_photos_exhausted q photos s :
  fs s !! path_join base_dir q = Some Dir →
  Forall (fun ph => ∃ id url,
            ph = Photo (Some id) (Some url)
            ∧ fs s !! save_path_of q id = None
            ∧ (request_fails (fetch_url E url) = true
               ∨ ∃ status data, fetch_url E url = Reply status data
                    ∧ KStr (get_image_hash E data) ∈ used_hashes s)) photos →
  fst (try_photos E q photos s) = Ret None
  ∧ same_store s (snd (try_photos E q photos s))
  ∧ events (snd (try_photos E q photos s))
    = events s
      ++ ((fun ph => HttpFetch (default "" (photo_original ph))) <$> photos).
Proof.
  intros Hdir Hall. revert s Hdir Hall.
  induction photos as [|ph rest IH]; intros s Hdir Hall.
  { simpl. by rewrite app_nil_r. }
  apply Forall_cons in Hall as [(id & url & -> & Hnew & Hcond) Hrest].
  rewrite (try_photos_step E q id url rest s s)
    by by apply mkdir_exist_ok_present.
  rewrite Hnew, (download_image_gives_nothing url _ s Hcond).
  destruct (IH (add_event (HttpFetch url) s) Hdir Hrest) as (Hr & Hs & He).
  split; [done|]. split; [done|].
  rewrite He. simpl. by rewrite <- app_assoc.
Qed.

Lemma init_events c s : events (snd (init E c s)) = events s.
Proof.
  rewrite init_cases.
  pose proof (load_used_hashes_state
                (set_api_key (py_or c (DEFAULT_API_KEY E)) s)) as Hst.
  destruct (load_used_hashes _) as [[h|e] s1]; simpl in *; subst s1; [|done].
  by destruct (mkdir_exist_ok_state base_dir
                 (set_used_hashes h
                    (set_api_key (py_or c (DEFAULT_API_KEY E)) s)))
    as (_ & -> & _).
Qed.

(** X25.  A run of [main] in local-only mode never contacts the search
    service or an image server: it makes no call at all, or the one
    wallpaper call. *)
Theorem main_local_only_no_network argv s :
  local_only_of argv = true →
  events (snd (main E argv s)) = events s
  ∨ ∃ abs_path,
      events (snd (main E argv s)) = events s ++ [SetDeskWallpaper abs_path].
Proof.
  intros Hlocal. rewrite main_cases, Hlocal.
  destruct (length argv <? 1)%nat; [by left|].
  assert (events (snd (random_choice E term_list s)) = events s) as Hrc.
  { by destruct (random_choice_cases E term_list s) as (x & _ & ->). }
  destruct (random_choice E term_list s) as [[query_term|e] s1];
    simpl in *; [|by left].
  pose proof (init_events None s1) as Hi.
  destruct (init E None s1) as [[[]|e] s2]; simpl in *; [|left; congruence].
  assert (events s2 = events s) as H2 by congruence.
  unfold change_background, bind.
  pose proof (get_local_image_events E query_term s2) as Hg.
  destruct (get_local_image E query_term s2) as [[[p|]|e] s3]; simpl in *.
  - rewrite set_wallpaper_cases.
    right. exists (abspath E p).
    destruct (SystemParametersInfoW E (abspath E p)); simpl; congruence.
  - left. congruence.
  - left. congruence.
Qed.

End Further.

(** ** The further properties at work in the example worlds *)



Lemma load_used_hashes_array_witness :
  load_used_hashes Demo.listed
  = (Ret (list_to_set (KStr <$> ["aa"; "bb"; "aa"])), Demo.listed).
Proof.
  assert (hash_file_path ∉ locked Demo.listed) as Hl
    by apply not_elem_of_empty.
  assert (fs Demo.listed !! hash_file_path
          = Some (File (JsonText (JArr (JStr <$> ["aa"; "bb"; "aa"])))))
    as Hfs by (vm_compute; reflexivity).
  exact (proj1 (load_used_hashes_array ["aa"; "bb"; "aa"] Demo.listed Hl Hfs)).
Defined.



Lemma download_image_some_witness :
  ∃ data,
    fs (snd (download_image Demo.env "https://img.example/102"
               (save_path_of "mountains" "102") Demo.shared))
    !! save_path_of "mountains" "102" = Some (File (Raw data)).
Proof.
  assert (fst (download_image Demo.env "https://img.example/102"
                 (save_path_of "mountains" "102") Demo.shared)
          = Ret (Some (save_path_of "mountains" "102")))
    as Hr by (vm_compute; reflexivity).
  destruct (download_image_some Demo.env _ _ _ _ Hr
              (save_path_not_hash_file "mountains" "102"))
    as (_ & status & data & _ & _ & _ & _ & Hfile & _).
  exists data. exact Hfile.
Defined.

Lemma try_photos_skips_present_witness :
  try_photos Demo.env "mountains" Demo.photos Demo.downloaded
  = (Ret None, Demo.downloaded).
Proof.
  assert (fs Demo.downloaded !! path_join base_dir "mountains" = Some Dir)
    as Hdir by (vm_compute; reflexivity).
  assert (Forall (fun ph => ∃ id url, ph = Photo (Some id) (Some url)
                    ∧ is_Some (fs Demo.downloaded
                               !! save_path_of "mountains" id))
            Demo.photos) as Hall.
  { repeat constructor; eexists _, _; (split; [reflexivity|]);
      vm_compute; eexists; reflexivity. }
  exact (proj2 (try_photos_skips_present Demo.env "mountains" Demo.photos []
                  Demo.downloaded Hdir Hall)).
Defined.

Lemma try_photos_missing_field_witness :
  try_photos Demo.env "mountains"
    (Photo (Some "105") None :: Demo.photos) Demo.shared
  = (Raise KeyError, Demo.shared).
Proof.
  exact (proj1 (try_photos_missing_field Demo.env "mountains"
                  (Photo (Some "105") None) Demo.photos Demo.shared
                  (or_introl eq_refl))).
Defined.

Lemma fetch_from_pexels_search_failure_witness :
  fetch_from_pexels Demo.env "mountains" Demo.no_key
  = (Ret None, add_event (HttpSearch None "mountains" 80 1)
                 (set_tape_pos 1 Demo.no_key)).
Proof.
  apply (fetch_from_pexels_search_failure Demo.env "mountains" Demo.no_key).
  left. reflexivity.
Defined.

Lemma fetch_from_pexels_returns_new_image_witness :
  ∃ data,
    fs (snd (fetch_from_pexels Demo.env "mountains" Demo.fresh))
    !! save_path_of "mountains" "103" = Some (File (Raw data))
    ∧ KStr (get_image_hash Demo.env data) ∉ used_hashes Demo.fresh.
Proof.
  assert (fst (fetch_from_pexels Demo.env "mountains" Demo.fresh)
          = Ret (Some (save_path_of "mountains" "103")))
    as Hr by (vm_compute; reflexivity).
  destruct (fetch_from_pexels_returns_new_image Demo.env _ _ _ Hr)
    as (status & photos & ph & id & url & st & data
        & _ & _ & _ & _ & _ & _ & _ & Hnew & _ & _ & Hfile).
  exists data. split; [exact Hfile|exact Hnew].
Defined.

Lemma main_exit_zero_witness :
  ∃ abs_path,
    last (events (snd (main Demo.env ["bgchanger.py"; "on"; "x"]
                         (set_tape_pos 2 Demo.curated))))
    = Some (SetDeskWallpaper abs_path)
    ∧ SystemParametersInfoW Demo.env abs_path = SpiNonZero.
Proof.
  apply main_exit_zero. vm_compute. reflexivity.
Defined.

Lemma init_returns_witness :
  fs (snd (init Demo.env (Some "key") Demo.fresh)) !! base_dir = Some Dir
  ∧ api_key (snd (init Demo.env (Some "key") Demo.fresh)) = Some "key".
Proof.
  assert (fst (init Demo.env (Some "key") Demo.fresh) = Ret ()) as Hr
    by (vm_compute; reflexivity).
  destruct (init_returns Demo.env (Some "key") Demo.fresh Hr)
    as (Hkey & _ & Hdir & _).
  split; [exact Hdir|exact Hkey].
Defined.

Lemma local_only_raises_on_file_witness :
  change_background Demo.env "mountains" true Demo.blocked
  = (Raise OSError, Demo.blocked).
Proof.
  assert (fs Demo.blocked !! path_join base_dir "mountains"
          = Some (File (Raw Demo.lake))) as Hfs by (vm_compute; reflexivity).
  exact (proj2 (local_only_raises_on_file Demo.env "mountains" _ _ Hfs)).
Defined.

Lemma fetch_from_pexels_raises_on_file_witness :
  fst (fetch_from_pexels Demo.env "mountains" Demo.blocked) = Raise OSError.
Proof.
  assert (search_api Demo.env (api_key Demo.blocked) "mountains" 80
            (1 + random_tape Demo.env (tape_pos Demo.blocked) mod 10)
          = Reply 200 (Photos Demo.photos)) as Hreply by reflexivity.
  assert (http_error 200 = false) as Hok by reflexivity.
  assert (Demo.photos ≠ []) as Hne by discriminate.
  assert (Forall (fun ph => is_Some (photo_original ph)
                            ∧ is_Some (photo_id ph)) Demo.photos) as Hall.
  { repeat constructor; eexists; reflexivity. }
  assert (fs Demo.blocked !! path_join base_dir "mountains"
          = Some (File (Raw Demo.lake))) as Hfs by (vm_compute; reflexivity).
  exact (proj1 (fetch_from_pexels_raises_on_file Demo.env "mountains" _
                  Demo.blocked 200 Demo.photos Hreply Hok Hne Hall Hfs)).
Defined.

Lemma acquired_image_is_a_file_witness :
  is_file (fs (snd (get_local_image Demo.env "abstract" Demo.curated)))
    ["wallpapers"; "abstract"; "a.jpg"] = true.
Proof.
  assert (fst (get_local_image Demo.env "abstract" Demo.curated)
          = Ret (Some ["wallpapers"; "abstract"; "a.jpg"])) as Hr
    by (vm_compute; reflexivity).
  exact (acquired_image_is_a_file Demo.env "abstract" true Demo.curated _ Hr).
Defined.

Lemma try_photos_exhausted_witness :
  fst (try_photos Demo.env "mountains"
         [Photo (Some "101") (Some "https://img.example/101");
          Photo (Some "105") (Some "https://img.example/105")] Demo.shared)
  = Ret None.
Proof.
  assert (fs Demo.shared !! path_join base_dir "mountains" = Some Dir)
    as Hdir by (vm_compute; reflexivity).
  assert (Forall (fun ph => ∃ id url,
            ph = Photo (Some id) (Some url)
            ∧ fs Demo.shared !! save_path_of "mountains" id = None
            ∧ (request_fails (fetch_url Demo.env url) = true
               ∨ ∃ status data, fetch_url Demo.env url = Reply status data
                    ∧ KStr (get_image_hash Demo.env data)
                      ∈ used_hashes Demo.shared))
            [Photo (Some "101") (Some "https://img.example/101");
             Photo (Some "105") (Some "https://img.example/105")]) as Hall.
  { repeat constructor; eexists _, _; (split; [reflexivity|]);
      (split; [vm_compute; reflexivity|left; reflexivity]). }
  exact (proj1 (try_photos_exhausted Demo.env "mountains" _ Demo.shared
                  Hdir Hall)).
Defined.

Lemma main_local_only_no_network_witness :
  local_only_of ["bgchanger.py"; "on"; "x"] = true
  ∧ (events (snd (main Demo.env ["bgchanger.py"; "on"; "x"] Demo.curated))
     = events Demo.curated
     ∨ ∃ abs_path,
         events (snd (main Demo.env ["bgchanger.py"; "on"; "x"] Demo.curated))
         = events Demo.curated ++ [SetDeskWallpaper abs_path]).
Proof.
  split; [reflexivity|].
  exact (main_local_only_no_network Demo.env ["bgchanger.py"; "on"; "x"]
           Demo.curated eq_refl).
Defined.
